(** * ssh-client-mcp: session registry, command executor and SFTP operations

    A shallow embedding of [src/SessionManager.ts], [src/SSHExecutor.ts] and
    [src/SFTPOperations.ts], followed by the properties of the design
    document that concern them.

    Conventions.
    - A JavaScript string is the list of its UTF-16 code units ([list N]);
      [js "..."] writes a literal.
    - A JavaScript number that the code only uses as an integer is a [Z].
    - [undefined]/[null] are [None].
    - A rejected promise or a thrown [Error] is [inl message]. *)

From Stdlib Require Import ZArith NArith List String Ascii Bool Lia DecimalString.
From stdpp Require Import gmap strings list.

Local Open Scope Z_scope.
Local Set Warnings "-register-all".


(** ** JavaScript strings *)

Abbreviation jsstring := (list N).

Definition js (s : string) : jsstring :=
  (fun a => N_of_ascii a) <$> list_ascii_of_string s.
Arguments js : simpl never.

(** [String(n)] for an integer [n]. *)
Definition numToString (n : Z) : jsstring :=
  js (NilZero.string_of_int (Z.to_int n)).

(** [s.startsWith(pat)] *)
Fixpoint startsWith (s pat : jsstring) {struct pat} : bool :=
  match pat, s with
  | [], _ => true
  | p :: pat', c :: s' => (c =? p)%N && startsWith s' pat'
  | _ :: _, [] => false
  end.

(** [s.includes(pat)] *)
Fixpoint includes (s pat : jsstring) : bool :=
  startsWith s pat ||
  match s with
  | [] => false
  | _ :: s' => includes s' pat
  end.

(** ECMAScript WhiteSpace and LineTerminator code units, the ones
    [String.prototype.trim] removes. *)
Definition isLineTerminator (c : N) : bool :=
  ((c =? 10) || (c =? 13) || (c =? 8232) || (c =? 8233))%N.

Definition isWhiteSpace (c : N) : bool :=
  ((c =? 9) || (c =? 11) || (c =? 12) || (c =? 32) || (c =? 160) ||
   (c =? 5760) || ((8192 <=? c) && (c <=? 8202)) || (c =? 8239) ||
   (c =? 8287) || (c =? 12288) || (c =? 65279))%N
  || isLineTerminator c.

Fixpoint trimStart (s : jsstring) : jsstring :=
  match s with
  | [] => []
  | c :: r => if isWhiteSpace c then trimStart r else s
  end.

Definition trimEnd (s : jsstring) : jsstring := rev (trimStart (rev s)).

(** [s.trim()] *)
Definition trim (s : jsstring) : jsstring := trimEnd (trimStart s).

(** [s.split(sep)] for a one-unit separator: the segments, empty ones
    included. *)
Fixpoint split (sep : N) (s : jsstring) : list jsstring :=
  match s with
  | [] => [[]]
  | c :: r =>
      if (c =? sep)%N then [] :: split sep r
      else match split sep r with
           | seg :: segs => (c :: seg) :: segs
           | [] => [[c]]
           end
  end.

(** Truthiness of a string ([Boolean(s)]). *)
Definition truthy (s : jsstring) : bool :=
  match s with [] => false | _ :: _ => true end.

Definition truthyOpt (s : option jsstring) : bool :=
  match s with Some s => truthy s | None => false end.

(** [text.replace(re, '')] for a global regular expression.  [m s] is the
    attempt to match the expression at the start of [s]; it returns what
    follows the match.  The scan goes left to right; after a match it resumes
    behind the match.  [skip] counts the units of a match still to be passed
    over (the matches here are never empty). *)
Fixpoint stripAllFrom (m : jsstring -> option jsstring) (skip : nat)
    (s : jsstring) : jsstring :=
  match s with
  | [] => []
  | c :: r =>
      match skip with
      | S k => stripAllFrom m k r
      | O =>
          match m s with
          | Some rest => stripAllFrom m (length r - length rest) r
          | None => c :: stripAllFrom m 0 r
          end
      end
  end.

Definition stripAll (m : jsstring -> option jsstring) (s : jsstring) : jsstring :=
  stripAllFrom m 0 s.

(** Match a literal at the start of [s]. *)
Fixpoint matchLiteral (lit s : jsstring) {struct lit} : option jsstring :=
  match lit, s with
  | [], _ => Some s
  | p :: lit', c :: s' => if (c =? p)%N then matchLiteral lit' s' else None
  | _ :: _, [] => None
  end.

(** ** types.ts *)

Record SSHCredentials := mkCredentials {
  host : jsstring;
  port : option Z;
  username : jsstring;
  password : option jsstring;
  privateKey : option jsstring;
  privateKeyPassphrase : option jsstring;
  readyTimeout : option Z;
  connectionTimeout : option Z
}.

(** The [client] and [sftp] handles belong to the ssh2 library; a handle is
    represented by the number of the [Client] it was made from. *)
Record SSHSession := mkSession {
  id : jsstring;
  credentials : SSHCredentials;
  client : nat;
  sftp : option nat;
  isConnected : bool;
  lastActivity : Z;
  createdAt : Z;
  commandCount : Z
}.

Record CommandResult := mkCommandResult {
  stdout : jsstring;
  stderr : jsstring;
  exitCode : option Z;
  signal : option jsstring
}.

Record FileTransferOptions := mkTransferOptions {
  opt_recursive : option bool;
  opt_overwrite : option bool;
  opt_permissions : option Z
}.

Record TransferResult := mkTransferResult {
  success : bool;
  transferred : list jsstring;
  failed : list jsstring;
  errors : gmap jsstring jsstring
}.

Record FileInfo := mkFileInfo {
  filename : jsstring;
  longname : jsstring;
  isDirectory : bool;
  isFile : bool;
  isSymbolicLink : bool;
  size : Z;
  permissions : Z;
  owner : Z;
  group : Z;
  accessTime : Z;
  modifyTime : Z
}.

Record DirectoryListing := mkListing {
  listing_path : jsstring;
  entries : list FileInfo;
  count : nat
}.

Record SessionInfo := mkSessionInfo {
  info_sessionId : jsstring;
  info_host : jsstring;
  info_username : jsstring;
  info_isConnected : bool;
  info_lastActivity : Z;
  info_createdAt : Z;
  info_commandCount : Z;
  info_uptime : Z
}.

(** Field updates of a session object. *)
Definition set_lastActivity (t : Z) (s : SSHSession) : SSHSession :=
  mkSession (id s) (credentials s) (client s) (sftp s) (isConnected s)
            t (createdAt s) (commandCount s).

Definition incr_commandCount (s : SSHSession) : SSHSession :=
  mkSession (id s) (credentials s) (client s) (sftp s) (isConnected s)
            (lastActivity s) (createdAt s) (commandCount s + 1).

(** ** SessionManager.ts *)

Module SessionManager.

(** What the collaborators of one [createSession] call answer: the uuid
    library ([env_uuid]), [new Client()] ([env_client]), the clock
    ([env_now]), the reading of the key file, which may throw
    ([env_loadKey]), the first of the client's [ready] and [error] events and
    the ready timer ([env_connect]), and the callback of [client.sftp]
    ([env_sftp]). *)
Inductive ClientEvent :=
| ClientReady
| ClientError (message : jsstring)
| ReadyTimerFired.

Record Env := mkEnv {
  env_uuid : jsstring;
  env_client : nat;
  env_now : Z;
  env_loadKey : option jsstring;
  env_connect : ClientEvent;
  env_sftp : jsstring + nat
}.

(** Calls made on the collaborators, in order. *)
Inductive Effect :=
| ClientConnect (c : nat) (h : jsstring) (p : Z) (u : jsstring)
| ClientSftp (c : nat)
| ClientEnd (c : nat)
| SftpEnd (c : nat)
| ConsoleError (message : jsstring).

(** The [sessions] map keeps insertion order, which [values()] follows. *)
Record t := mkManager {
  sessions : list (jsstring * SSHSession);
  sessionTimeout : Z;
  maxSessions : Z
}.

Definition orDefault (x : option Z) (d : Z) : Z :=
  match x with
  | Some v => if v =? 0 then d else v
  | None => d
  end.

Definition new (timeout limit : option Z) : t :=
  mkManager [] (orDefault timeout (30 * 60 * 1000)) (orDefault limit 100).

(** [Map.prototype.set] *)
Fixpoint mapSet (k : jsstring) (v : SSHSession)
    (m : list (jsstring * SSHSession)) : list (jsstring * SSHSession) :=
  match m with
  | [] => [(k, v)]
  | (k', v') :: m' =>
      if bool_decide (k' = k) then (k, v) :: m' else (k', v') :: mapSet k v m'
  end.

(** [Map.prototype.get] *)
Fixpoint mapGet (k : jsstring) (m : list (jsstring * SSHSession))
    : option SSHSession :=
  match m with
  | [] => None
  | (k', v') :: m' => if bool_decide (k' = k) then Some v' else mapGet k m'
  end.

(** [Map.prototype.delete] *)
Fixpoint mapDelete (k : jsstring) (m : list (jsstring * SSHSession))
    : list (jsstring * SSHSession) :=
  match m with
  | [] => []
  | (k', v') :: m' =>
      if bool_decide (k' = k) then m' else (k', v') :: mapDelete k m'
  end.

(** The comparison of [findExistingSession]: the stored port is compared
    as it was given, the requested one after [|| 22]. *)
Definition sameTarget (stored requested : SSHCredentials) : bool :=
  bool_decide (host stored = host requested) &&
  match port stored with
  | Some p => p =? orDefault (port requested) 22
  | None => false
  end &&
  bool_decide (username stored = username requested).

(** The first session of the map with the same target, and its position. *)
Fixpoint findFrom (i : nat) (m : list (jsstring * SSHSession))
    (c : SSHCredentials) : option (nat * SSHSession) :=
  match m with
  | [] => None
  | (_, s) :: m' =>
      if sameTarget (credentials s) c then Some (i, s) else findFrom (S i) m' c
  end.

Definition findExistingSession (mgr : t) (c : SSHCredentials)
    : option (nat * SSHSession) :=
  findFrom 0 (sessions mgr) c.

(** The session object found is the one the map holds: assigning to its
    field changes the map's entry. *)
Definition touch (i : nat) (now : Z) (mgr : t) : t :=
  mkManager
    (alter (fun kv => (kv.1, set_lastActivity now kv.2)) i (sessions mgr))
    (sessionTimeout mgr) (maxSessions mgr).

(** [connectClient]: the promise's outcome and the calls made before it
    settles.  Of the configuration handed to [client.connect] the target is
    kept.  A private key is a string here; a [Buffer] is not told apart. *)
Definition connectClient (c : SSHCredentials) (env : Env)
    : list Effect * (jsstring + unit) :=
  let connect :=
    ClientConnect (env_client env) (host c) (orDefault (port c) 22) (username c) in
  let wait :=
    match env_connect env with
    | ClientReady => ([connect], inr tt)
    | ClientError m => ([connect], inl m)
    | ReadyTimerFired =>
        ([connect; ClientEnd (env_client env)], inl (js "SSH connection timeout"))
    end in
  if truthyOpt (privateKey c) then
    match env_loadKey env with
    | Some m => ([], inl m)
    | None => wait
    end
  else if truthyOpt (password c) then wait
  else
    ([], inl (js "No authentication method provided (password or privateKey required)")).

(** [initSFTP] *)
Definition initSFTP (env : Env) : list Effect * (jsstring + nat) :=
  ([ClientSftp (env_client env)], env_sftp env).

Definition limitMessage (mgr : t) : jsstring :=
  js "Maximum session limit (" ++ numToString (maxSessions mgr) ++
  js ") reached. Please close some sessions.".

Definition failurePrefix : jsstring := js "Failed to create SSH session: ".

(** The body of the [try] block up to the registration: connect, then open
    the SFTP subsystem. *)
Definition establish (c : SSHCredentials) (env : Env)
    : list Effect * (jsstring + nat) :=
  match connectClient c env with
  | (eff, inl m) => (eff, inl m)
  | (eff, inr _) =>
      let '(eff', r) := initSFTP env in (eff ++ eff', r)
  end.

(** [createSession] behind its first [if]: the limit check, the [try]
    block with the registration, and the [catch] block. *)
Definition openSession (mgr : t) (c : SSHCredentials) (env : Env)
    : t * list Effect * (jsstring + jsstring) :=
  if Z.of_nat (length (sessions mgr)) >=? maxSessions mgr then
    (mgr, [], inl (limitMessage mgr))
  else
    match establish c env with
    | (eff, inr h) =>
        let session :=
          mkSession (env_uuid env) c (env_client env) (Some h) true
                    (env_now env) (env_now env) 0 in
        (mkManager (mapSet (env_uuid env) session (sessions mgr))
                   (sessionTimeout mgr) (maxSessions mgr),
         eff ++ [ConsoleError (js "[SessionManager] Session created: " ++ env_uuid env)],
         inr (env_uuid env))
    | (eff, inl m) =>
        (mgr, eff ++ [ClientEnd (env_client env)], inl (failurePrefix ++ m))
    end.

Definition createSession (mgr : t) (c : SSHCredentials) (env : Env)
    : t * list Effect * (jsstring + jsstring) :=
  match findExistingSession mgr c with
  | Some (i, s) =>
      if isConnected s then (touch i (env_now env) mgr, [], inr (id s))
      else openSession mgr c env
  | None => openSession mgr c env
  end.

(** [getSession] *)
Definition getSession (mgr : t) (sessionId : jsstring) (now : Z)
    : t * (jsstring + SSHSession) :=
  match mapGet sessionId (sessions mgr) with
  | None => (mgr, inl (js "Session not found: " ++ sessionId))
  | Some s =>
      if isConnected s then
        let s' := set_lastActivity now s in
        (mkManager (mapSet sessionId s' (sessions mgr))
                   (sessionTimeout mgr) (maxSessions mgr), inr s')
      else (mgr, inl (js "Session is not connected: " ++ sessionId))
  end.

(** [closeSession].  The calls on the two handles are taken not to throw;
    when one does, the [catch] block deletes the session all the same. *)
Definition closeSession (mgr : t) (sessionId : jsstring)
    : t * list Effect * (jsstring + unit) :=
  match mapGet sessionId (sessions mgr) with
  | None => (mgr, [], inl (js "Session not found: " ++ sessionId))
  | Some s =>
      (mkManager (mapDelete sessionId (sessions mgr))
                 (sessionTimeout mgr) (maxSessions mgr),
       match sftp s with Some h => [SftpEnd h] | None => [] end ++
       [ClientEnd (client s);
        ConsoleError (js "[SessionManager] Session closed: " ++ sessionId)],
       inr tt)
  end.

(** The identifiers [cleanupExpiredSessions] closes at time [now]. *)
Definition expiredSessions (mgr : t) (now : Z) : list jsstring :=
  fst <$> filter (fun kv => sessionTimeout mgr < now - lastActivity kv.2)
                 (sessions mgr).

(** [hasSession] *)
Definition hasSession (mgr : t) (sessionId : jsstring) : bool :=
  bool_decide (is_Some (mapGet sessionId (sessions mgr))).

Definition infoOf (now : Z) (s : SSHSession) : SessionInfo :=
  mkSessionInfo (id s) (host (credentials s)) (username (credentials s))
                (isConnected s) (lastActivity s) (createdAt s) (commandCount s)
                (now - createdAt s).

(** [getSessionInfo]: [getSession] stamps the session before it is
    described. *)
Definition getSessionInfo (mgr : t) (sessionId : jsstring) (now : Z)
    : t * (jsstring + SessionInfo) :=
  match getSession mgr sessionId now with
  | (mgr', inr s) => (mgr', inr (infoOf now s))
  | (mgr', inl e) => (mgr', inl e)
  end.

(** [listSessions] *)
Definition listSessions (mgr : t) (now : Z) : list SessionInfo :=
  (fun kv => infoOf now kv.2)
    <$> filter (fun kv => isConnected kv.2 = true) (sessions mgr).

(** [closeAllSessions]: the keys are taken first, then each is closed. *)
Fixpoint closeEach (ids : list jsstring) (mgr : t)
    : t * list Effect * (jsstring + unit) :=
  match ids with
  | [] => (mgr, [], inr tt)
  | sessionId :: ids' =>
      match closeSession mgr sessionId with
      | (mgr', eff, inr _) =>
          let '(mgr'', eff', r) := closeEach ids' mgr' in (mgr'', eff ++ eff', r)
      | (mgr', eff, inl e) => (mgr', eff, inl e)
      end
  end.

Definition closeAllSessions (mgr : t) : t * list Effect * (jsstring + unit) :=
  closeEach (fst <$> sessions mgr) mgr.

(** The second loop of [cleanupExpiredSessions]: a rejection of
    [closeSession] is logged and the loop goes on. *)
Fixpoint closeExpired (ids : list jsstring) (mgr : t) : t * list Effect :=
  match ids with
  | [] => (mgr, [])
  | sessionId :: ids' =>
      let '(mgr', eff, r) := closeSession mgr sessionId in
      let log :=
        match r with
        | inl e => [ConsoleError (js "Error cleaning up session " ++ sessionId
                                   ++ js ": " ++ e)]
        | inr _ => []
        end in
      let '(mgr'', eff') := closeExpired ids' mgr' in
      (mgr'', eff ++ log ++ eff')
  end.

(** [cleanupExpiredSessions], run by the timer at time [now]. *)
Definition cleanupExpiredSessions (mgr : t) (now : Z) : t * list Effect :=
  let expired := expiredSessions mgr now in
  let '(mgr', eff) := closeExpired expired mgr in
  (mgr',
   eff ++
   match expired with
   | [] => []
   | _ :: _ =>
       [ConsoleError (js "[SessionManager] Cleaned up "
                       ++ numToString (Z.of_nat (length expired))
                       ++ js " expired sessions")]
   end).

(** Whether a call opened a connection. *)
Definition opensConnection (eff : list Effect) : bool :=
  existsb (fun e => match e with ClientConnect _ _ _ _ => true | _ => false end) eff.

End SessionManager.

(** ** SSHExecutor.ts *)

Module SSHExecutor.

Record CommandOptions := mkOptions {
  timeout : option Z;
  encoding : option jsstring;
  sudoPassword : option jsstring
}.

(** State of the promise each [execute...] function returns. *)
Inductive Settled :=
| Pending
| Resolved (r : CommandResult)
| Rejected (message : jsstring).

(** What the event loop delivers to the callbacks one call registers.  A
    chunk is given as the text [data.toString(encoding)] decodes it to;
    [StreamClose] carries the value [Date.now()] has when its handler runs. *)
Inductive Event :=
| TimerFired
| ExecCallback (err : option jsstring)
| StreamClose (code : option Z) (sig : option jsstring) (now : Z)
| StreamData (text : jsstring)
| StderrData (text : jsstring)
| StreamError (message : jsstring).

(** The variables the callbacks of one call close over, the session object
    they share with the caller, and what was done to the stream. *)
Record Run := mkRun {
  session : SSHSession;
  out : jsstring;
  err : jsstring;
  code : option Z;
  sig : option jsstring;
  passwordSent : bool;
  timerArmed : bool;
  execAnswered : bool;
  streamOpen : bool;
  promise : Settled;
  written : list jsstring;
  ended : bool;
  issued : jsstring;
  pty : bool
}.

(** The state when the promise's executor has run: the timer is armed and
    [client.exec] was called with [commandLine] and the [pty] option. *)
Definition start (s : SSHSession) (commandLine : jsstring) (withPty : bool) : Run :=
  mkRun s [] [] None None false true false false Pending [] false
        commandLine withPty.

(** [resolve] and [reject] act on a pending promise only. *)
Definition settle (p : Settled) (st : Run) : Run :=
  mkRun (session st) (out st) (err st) (code st) (sig st) (passwordSent st)
        (timerArmed st) (execAnswered st) (streamOpen st)
        (match promise st with Pending => p | settled => settled end)
        (written st) (ended st) (issued st) (pty st).

Definition clearTimeout (st : Run) : Run :=
  mkRun (session st) (out st) (err st) (code st) (sig st) (passwordSent st)
        false (execAnswered st) (streamOpen st) (promise st)
        (written st) (ended st) (issued st) (pty st).

Definition openStream (st : Run) : Run :=
  mkRun (session st) (out st) (err st) (code st) (sig st) (passwordSent st)
        (timerArmed st) true true (promise st) (written st) (ended st) (issued st) (pty st).

Definition execFailed (st : Run) : Run :=
  mkRun (session st) (out st) (err st) (code st) (sig st) (passwordSent st)
        (timerArmed st) true false (promise st) (written st) (ended st) (issued st) (pty st).

Definition appendOut (text : jsstring) (st : Run) : Run :=
  mkRun (session st) (out st ++ text) (err st) (code st) (sig st)
        (passwordSent st) (timerArmed st) (execAnswered st) (streamOpen st)
        (promise st) (written st) (ended st) (issued st) (pty st).

Definition appendErr (text : jsstring) (st : Run) : Run :=
  mkRun (session st) (out st) (err st ++ text) (code st) (sig st)
        (passwordSent st) (timerArmed st) (execAnswered st) (streamOpen st)
        (promise st) (written st) (ended st) (issued st) (pty st).

Definition write (text : jsstring) (st : Run) : Run :=
  mkRun (session st) (out st) (err st) (code st) (sig st)
        (passwordSent st) (timerArmed st) (execAnswered st) (streamOpen st)
        (promise st) (written st ++ [text]) (ended st) (issued st) (pty st).

Definition endInput (st : Run) : Run :=
  mkRun (session st) (out st) (err st) (code st) (sig st)
        (passwordSent st) (timerArmed st) (execAnswered st) (streamOpen st)
        (promise st) (written st) true (issued st) (pty st).

Definition markPasswordSent (st : Run) : Run :=
  mkRun (session st) (out st) (err st) (code st) (sig st)
        true (timerArmed st) (execAnswered st) (streamOpen st)
        (promise st) (written st) (ended st) (issued st) (pty st).

(** The first statements of every close handler: record the exit status,
    count the command and refresh the activity stamp. *)
Definition recordClose (c : option Z) (sg : option jsstring) (now : Z)
    (st : Run) : Run :=
  mkRun (set_lastActivity now (incr_commandCount (session st)))
        (out st) (err st) c sg (passwordSent st) (timerArmed st)
        (execAnswered st) (streamOpen st) (promise st) (written st) (ended st)
        (issued st) (pty st).

Definition effectiveTimeout (o : CommandOptions) : Z :=
  SessionManager.orDefault (timeout o) 30000.

Definition timeoutMessage (o : CommandOptions) : jsstring :=
  js "Command execution timeout after " ++ numToString (effectiveTimeout o) ++ js "ms".

Definition sudoTimeoutMessage (o : CommandOptions) : jsstring :=
  js "Sudo command execution timeout after " ++ numToString (effectiveTimeout o) ++ js "ms".

(** The timer callback runs only while the timer is armed, and once. *)
Definition onTimer (message : jsstring) (st : Run) : Run :=
  if timerArmed st then settle (Rejected message) (clearTimeout st) else st.

(** The callback of [client.exec] runs once. *)
Definition onExec (e : option jsstring) (st : Run) : Run :=
  if execAnswered st then st
  else match e with
       | Some m => settle (Rejected m) (clearTimeout (execFailed st))
       | None => openStream st
       end.

Definition onStreamError (message : jsstring) (st : Run) : Run :=
  settle (Rejected message) (clearTimeout st).

(** *** executeCommand *)

Definition executeCommand_step (o : CommandOptions) (st : Run) (ev : Event) : Run :=
  match ev with
  | TimerFired => onTimer (timeoutMessage o) st
  | ExecCallback e => onExec e st
  | _ =>
      if streamOpen st then
        match ev with
        | StreamClose c sg now =>
            let st := recordClose c sg now (clearTimeout st) in
            settle (Resolved (mkCommandResult (trim (out st)) (trim (err st)) c sg)) st
        | StreamData text => appendOut text st
        | StderrData text => appendErr text st
        | StreamError m => onStreamError m st
        | _ => st
        end
      else st
  end.

Definition executeCommand (s : SSHSession) (command : jsstring)
    (o : CommandOptions) (events : list Event) : Run :=
  fold_left (executeCommand_step o) events (start s command false).

(** *** executeCommands *)

(** The result pushed for a command whose execution was rejected. *)
Definition failedResult (message : jsstring) : CommandResult :=
  mkCommandResult [] message (Some (-1)) None.

(** [result.exitCode !== 0] *)
Definition exitedNonZero (r : CommandResult) : bool :=
  match exitCode r with
  | Some c => negb (c =? 0)
  | None => true
  end.

(** [executeCommands].  [deliveries] gives, for each command in turn, the
    events delivered while the sequence awaits it.  A promise that is still
    pending after its events keeps the sequence waiting for ever: [None]. *)
Fixpoint executeCommands (s : SSHSession) (commands : list jsstring)
    (o : CommandOptions) (stopOnError : option bool)
    (deliveries : list (list Event))
    : option (SSHSession * list CommandResult) :=
  match commands, deliveries with
  | [], _ => Some (s, [])
  | _ :: _, [] => None
  | command :: commands', events :: deliveries' =>
      let run := executeCommand s command o events in
      let continue (result : CommandResult) (stop : bool) :=
        if stop then Some (session run, [result])
        else
          match executeCommands (session run) commands' o stopOnError deliveries' with
          | Some (s', results) => Some (s', result :: results)
          | None => None
          end in
      match promise run with
      | Pending => None
      | Resolved result =>
          continue result (default false stopOnError && exitedNonZero result)
      | Rejected message =>
          continue (failedResult message) (default false stopOnError)
      end
  end.

(** *** executeWithInput *)

Definition executeWithInput_step (input : jsstring) (o : CommandOptions)
    (st : Run) (ev : Event) : Run :=
  match ev with
  | TimerFired => onTimer (timeoutMessage o) st
  | ExecCallback e =>
      if execAnswered st then st
      else match e with
           | Some _ => onExec e st
           | None => endInput (write input (onExec e st))
           end
  | _ =>
      if streamOpen st then
        match ev with
        | StreamClose c sg now =>
            let st := recordClose c sg now (clearTimeout st) in
            settle (Resolved (mkCommandResult (trim (out st)) (trim (err st)) c sg)) st
        | StreamData text => appendOut text st
        | StderrData text => appendErr text st
        | StreamError m => onStreamError m st
        | _ => st
        end
      else st
  end.

Definition executeWithInput (s : SSHSession) (command input : jsstring)
    (o : CommandOptions) (events : list Event) : Run :=
  fold_left (executeWithInput_step input o) events (start s command false).

(** *** executeSudoCommand *)

(** [sudoPassword.replace(/'/g, "'\\''")] *)
Definition escapeQuotes (s : jsstring) : jsstring :=
  concat ((fun c => if (c =? 39)%N then js "'\''" else [c]) <$> s).

(** The command line handed to [client.exec] and its [pty] flag. *)
Definition sudoCommand (command : jsstring) (o : CommandOptions) : jsstring * bool :=
  match sudoPassword o with
  | Some pw =>
      if truthy pw then
        (js "echo '" ++ escapeQuotes pw ++ js "' | sudo -S " ++ command, true)
      else (js "sudo " ++ command, false)
  | None => (js "sudo " ++ command, false)
  end.

(** [.+?:] behind its first unit: up to the nearest colon, which no line
    terminator may precede. *)
Fixpoint lazyUntilColon (s : jsstring) : option jsstring :=
  match s with
  | [] => None
  | c :: r =>
      if (c =? 58)%N then Some r
      else if isLineTerminator c then None
      else lazyUntilColon r
  end.

(** [/\[sudo\] password for .+?:/] matched at the start of [s]. *)
Definition matchSudoPrompt (s : jsstring) : option jsstring :=
  match matchLiteral (js "[sudo] password for ") s with
  | Some (c :: r) => if isLineTerminator c then None else lazyUntilColon r
  | _ => None
  end.

(** [/Password:/] matched at the start of [s]. *)
Definition matchPasswordColon (s : jsstring) : option jsstring :=
  matchLiteral (js "Password:") s.

Definition cleanStderr (text : jsstring) : jsstring :=
  trim (stripAll matchPasswordColon (stripAll matchSudoPrompt text)).

(** The test of the data handler on a chunk. *)
Definition looksLikePrompt (text : jsstring) : bool :=
  includes text (js "password") || includes text (js "Password").

Definition newline : jsstring := js (String "010" EmptyString).

(** The data handler of [executeSudoCommand]. *)
Definition sudoData (o : CommandOptions) (text : jsstring) (st : Run) : Run :=
  if negb (passwordSent st) && truthyOpt (sudoPassword o) && looksLikePrompt text
  then
    match sudoPassword o with
    | Some pw => markPasswordSent (write (pw ++ newline) st)
    | None => st
    end
  else appendOut text st.

Definition executeSudoCommand_step (o : CommandOptions) (st : Run) (ev : Event) : Run :=
  match ev with
  | TimerFired => onTimer (sudoTimeoutMessage o) st
  | ExecCallback e => onExec e st
  | _ =>
      if streamOpen st then
        match ev with
        | StreamClose c sg now =>
            let st := recordClose c sg now (clearTimeout st) in
            settle (Resolved (mkCommandResult (trim (out st)) (cleanStderr (err st)) c sg)) st
        | StreamData text => sudoData o text st
        | StderrData text => appendErr text st
        | StreamError m => onStreamError m st
        | _ => st
        end
      else st
  end.

Definition executeSudoCommand (s : SSHSession) (command : jsstring)
    (o : CommandOptions) (events : list Event) : Run :=
  fold_left (executeSudoCommand_step o) events
            (start s (sudoCommand command o).1 (sudoCommand command o).2).

End SSHExecutor.

(** ** SFTPOperations.ts *)

Module SFTPOperations.

(** File mode constants (from stat.h): 0o170000, 0o100000, 0o040000 and
    0o120000. *)
Definition S_IFMT : Z := 61440.
Definition S_IFREG : Z := 32768.
Definition S_IFDIR : Z := 16384.
Definition S_IFLNK : Z := 40960.

Definition isDirectoryMode (mode : Z) : bool := Z.land mode S_IFMT =? S_IFDIR.
Definition isFileMode (mode : Z) : bool := Z.land mode S_IFMT =? S_IFREG.
Definition isSymlinkMode (mode : Z) : bool := Z.land mode S_IFMT =? S_IFLNK.

(** ssh2's [Stats], [Attributes], [FileEntry] and node's [Dirent]. *)
Record Stats := mkStats {
  st_mode : Z;
  st_size : Z;
  st_uid : Z;
  st_gid : Z;
  st_atime : Z;
  st_mtime : Z
}.

Record Attributes := mkAttributes {
  at_mode : option Z;
  at_size : option Z;
  at_uid : option Z;
  at_gid : option Z;
  at_atime : option Z;
  at_mtime : option Z
}.

Record FileEntry := mkFileEntry {
  fe_filename : jsstring;
  fe_longname : jsstring;
  fe_attrs : Attributes
}.

Record Dirent := mkDirent {
  de_name : jsstring;
  de_isDirectory : bool
}.

(** Modelled from the spec: the methods [isDirectory()], [isFile()] and
    [isSymbolicLink()] of the ssh2 library's [Stats] class, which is not
    part of this repository.  The design document gives their rule: "a
    file-type field is masked out of the permission word and compared
    against fixed type constants". *)
Definition Stats_isDirectory (s : Stats) : bool :=
  Z.land (st_mode s) 61440 =? 16384.
Definition Stats_isFile (s : Stats) : bool :=
  Z.land (st_mode s) 61440 =? 32768.
Definition Stats_isSymbolicLink (s : Stats) : bool :=
  Z.land (st_mode s) 61440 =? 40960.

(** [a || b] on strings *)
Definition orElse (a b : jsstring) : jsstring := if truthy a then a else b.

Definition statsToFileInfo (name : jsstring) (stats : Stats)
    (long : option jsstring) : FileInfo :=
  mkFileInfo name
    (match long with Some l => orElse l name | None => name end)
    (Stats_isDirectory stats) (Stats_isFile stats) (Stats_isSymbolicLink stats)
    (st_size stats) (st_mode stats) (st_uid stats) (st_gid stats)
    (st_atime stats * 1000) (st_mtime stats * 1000).

Definition attrsToFileInfo (name : jsstring) (attrs : Attributes)
    (long : option jsstring) : FileInfo :=
  let mode := default 0 (at_mode attrs) in
  mkFileInfo name
    (match long with Some l => orElse l name | None => name end)
    (isDirectoryMode mode) (isFileMode mode) (isSymlinkMode mode)
    (default 0 (at_size attrs)) mode
    (default 0 (at_uid attrs)) (default 0 (at_gid attrs))
    (default 0 (at_atime attrs) * 1000) (default 0 (at_mtime attrs) * 1000).

(** The collaborators of the file operations: the SFTP subsystem of the
    remote host (ssh2's [SFTPWrapper]), node's [fs] and [path], and the
    clock.  [W] is the state of that world; a callback's [err.message] is an
    [option] or the left of a sum. *)
Class Env (W : Type) := {
  Date_now : W -> Z;
  sftp_stat : jsstring -> W -> jsstring + Stats;
  sftp_readdir : jsstring -> W -> jsstring + list FileEntry;
  sftp_mkdir : jsstring -> Z -> W -> W * option jsstring;
  sftp_unlink : jsstring -> W -> W * option jsstring;
  sftp_rmdir : jsstring -> W -> W * option jsstring;
  sftp_rename : jsstring -> jsstring -> W -> W * option jsstring;
  sftp_fastPut : jsstring -> jsstring -> option Z -> W -> W * option jsstring;
  sftp_fastGet : jsstring -> jsstring -> W -> W * option jsstring;
  fs_existsSync : jsstring -> W -> bool;
  fs_readdirSync : jsstring -> W -> jsstring + list Dirent;
  fs_mkdirSync : jsstring -> W -> W * option jsstring;
  path_join : jsstring -> jsstring -> jsstring;
  path_dirname : jsstring -> jsstring;
  path_basename : jsstring -> jsstring
}.

(** *** The monad of an async function

    An operation runs on the world and the session object and either
    fulfils, rejects with a message, or has not finished within the
    recursion depth it was allowed. *)
Inductive Outcome (A : Type) :=
| Ok (a : A)
| Throw (message : jsstring)
| OutOfFuel.
Arguments Ok {A} a.
Arguments Throw {A} message.
Arguments OutOfFuel {A}.

Record State (W : Type) := mkState {
  world : W;
  session : SSHSession
}.
Arguments mkState {W} world session.
Arguments world {W} s.
Arguments session {W} s.

Definition M (W A : Type) : Type := State W -> State W * Outcome A.

Definition ret {W A} (a : A) : M W A := fun s => (s, Ok a).

Definition throw {W A} (message : jsstring) : M W A := fun s => (s, Throw message).

Definition bind {W A B} (m : M W A) (k : A -> M W B) : M W B :=
  fun s =>
    match m s with
    | (s', Ok a) => k a s'
    | (s', Throw e) => (s', Throw e)
    | (s', OutOfFuel) => (s', OutOfFuel)
    end.

(** [try { m } catch (error) { h error.message }] *)
Definition tryCatch {W A} (m : M W A) (h : jsstring -> M W A) : M W A :=
  fun s =>
    match m s with
    | (s', Throw e) => h e s'
    | r => r
    end.

Declare Scope async_scope.
Delimit Scope async_scope with async.
Notation "'await' x <- m ; k" := (bind m (fun x => k))
  (at level 10, x name, m at level 100, k at level 200) : async_scope.
Notation "'do' m ; k" := (bind m (fun _ => k))
  (at level 10, m at level 100, k at level 200) : async_scope.
Local Open Scope async_scope.

(** [for (const x of l) { body x }] *)
Fixpoint forOf {W A} (l : list A) (body : A -> M W unit) : M W unit :=
  match l with
  | [] => ret tt
  | x :: l' => do body x; forOf l' body
  end.

Section Operations.

Context {W : Type} `{Env W}.

(** Lifting the collaborators' calls. *)
Definition query {A} (f : W -> jsstring + A) (wrap : jsstring -> jsstring) : M W A :=
  fun s =>
    match f (world s) with
    | inl e => (s, Throw (wrap e))
    | inr a => (s, Ok a)
    end.

Definition command (f : W -> W * option jsstring) (wrap : jsstring -> jsstring)
    : M W unit :=
  fun s =>
    match f (world s) with
    | (w, Some e) => (mkState w (session s), Throw (wrap e))
    | (w, None) => (mkState w (session s), Ok tt)
    end.

(** [session.lastActivity = Date.now()] *)
Definition touch : M W unit :=
  fun s => (mkState (world s) (set_lastActivity (Date_now (world s)) (session s)), Ok tt).

Definition getSFTP : M W nat :=
  fun s =>
    match sftp (session s) with
    | Some h => (s, Ok h)
    | None => (s, Throw (js "SFTP client not initialized"))
    end.

Definition listDirectory (remotePath : jsstring) : M W DirectoryListing :=
  do getSFTP;
  await list <- query (sftp_readdir remotePath)
                      (fun e => js "Failed to list directory: " ++ e);
  let entries :=
    (fun entry => attrsToFileInfo (fe_filename entry) (fe_attrs entry)
                                  (Some (fe_longname entry))) <$> list in
  do touch;
  ret (mkListing remotePath entries (length entries)).

Definition stat (remotePath : jsstring) : M W FileInfo :=
  do getSFTP;
  await stats <- query (sftp_stat remotePath)
                       (fun e => js "Failed to get stats: " ++ e);
  do touch;
  ret (statsToFileInfo (path_basename remotePath) stats None).

Definition exists_ (remotePath : jsstring) : M W bool :=
  tryCatch (do stat remotePath; ret true) (fun _ => ret false).

(** One round of the loop of [mkdirRecursive]: the next prefix. *)
Definition nextPath (currentPath part : jsstring) : jsstring :=
  if bool_decide (currentPath = js ".") then part
  else currentPath ++ js "/" ++ part.

Fixpoint mkdirLoop (mode : Z) (parts : list jsstring) (currentPath : jsstring)
    : M W unit :=
  match parts with
  | [] => ret tt
  | part :: parts' =>
      let currentPath := nextPath currentPath part in
      do tryCatch
        (do stat currentPath; ret tt)
        (fun _ =>
           command (fun w =>
                      match sftp_mkdir currentPath mode w with
                      | (w', Some e) =>
                          if bool_decide (e = js "Failure") then (w', None)
                          else (w', Some e)
                      | r => r
                      end)
                   (fun e => js "Failed to create directory " ++ currentPath
                             ++ js ": " ++ e));
      mkdirLoop mode parts' currentPath
  end.

Definition pathParts (remotePath : jsstring) : list jsstring :=
  filter (fun part => truthy part = true) (split 47 remotePath).

Definition startPath (remotePath : jsstring) : jsstring :=
  if startsWith remotePath (js "/") then [] else js ".".

Definition mkdirRecursive (remotePath : jsstring) (mode : Z) : M W unit :=
  do getSFTP;
  do mkdirLoop mode (pathParts remotePath) (startPath remotePath);
  touch.

Definition mkdir (remotePath : jsstring) (recursive : option bool)
    (mode : option Z) : M W unit :=
  do getSFTP;
  let recursive := default false recursive in
  let mode := default 493 mode in
  if recursive then mkdirRecursive remotePath mode
  else
    do command (sftp_mkdir remotePath mode)
                  (fun e => js "Failed to create directory: " ++ e);
    touch.

Definition unlink (remotePath : jsstring) : M W unit :=
  do getSFTP;
  do command (sftp_unlink remotePath)
                (fun e => js "Failed to delete file: " ++ e);
  touch.

Definition rmdir (remotePath : jsstring) : M W unit :=
  do getSFTP;
  do command (sftp_rmdir remotePath)
                (fun e => js "Failed to remove directory: " ++ e);
  touch.

(** The recursion follows the remote tree, so it is bounded by [fuel], the
    depth of nesting allowed. *)
Fixpoint removeRecursive (fuel : nat) (remotePath : jsstring) : M W unit :=
  match fuel with
  | O => fun s => (s, OutOfFuel)
  | S fuel' =>
      await listing <- listDirectory remotePath;
      do forOf (entries listing) (fun entry =>
        let entryPath := remotePath ++ js "/" ++ filename entry in
        if isDirectory entry then removeRecursive fuel' entryPath
        else unlink entryPath);
      rmdir remotePath
  end.

Definition remove (fuel : nat) (remotePath : jsstring) (recursive : option bool)
    : M W unit :=
  let recursive := default false recursive in
  tryCatch
    (await stats <- stat remotePath;
     if isDirectory stats then
       if recursive then removeRecursive fuel remotePath
       else rmdir remotePath
     else unlink remotePath)
    (fun message => throw (js "Failed to remove: " ++ message)).

(** [fs.existsSync(p)] *)
Definition existsSync (p : jsstring) : M W bool :=
  fun s => (s, Ok (fs_existsSync p (world s))).

Definition overwriteRequested (options : option FileTransferOptions) : bool :=
  match options with
  | Some o => default false (opt_overwrite o)
  | None => false
  end.

(** [writeOptions.mode], set when [options.permissions] is truthy. *)
Definition writeMode (options : option FileTransferOptions) : option Z :=
  match options with
  | Some o =>
      match opt_permissions o with
      | Some p => if p =? 0 then None else Some p
      | None => None
      end
  | None => None
  end.

Definition uploadFile (localPath remotePath : jsstring)
    (options : option FileTransferOptions) : M W unit :=
  do getSFTP;
  await present <- existsSync localPath;
  if negb present then throw (js "Local file not found: " ++ localPath)
  else
    do (if negb (overwriteRequested options) then
          await taken <- exists_ remotePath;
          if taken then throw (js "Remote file already exists: " ++ remotePath)
          else ret tt
        else ret tt);
    do command (sftp_fastPut localPath remotePath (writeMode options))
               (fun e => js "Failed to upload file: " ++ e);
    touch.

Definition downloadFile (remotePath localPath : jsstring)
    (options : option FileTransferOptions) : M W unit :=
  do getSFTP;
  await present <- exists_ remotePath;
  if negb present then throw (js "Remote file not found: " ++ remotePath)
  else
    await taken <- existsSync localPath;
    if negb (overwriteRequested options) && taken then
      throw (js "Local file already exists: " ++ localPath)
    else
      let localDir := path_dirname localPath in
      await dirPresent <- existsSync localDir;
      do (if negb dirPresent then command (fs_mkdirSync localDir) (fun e => e)
          else ret tt);
      do command (sftp_fastGet remotePath localPath)
                 (fun e => js "Failed to download file: " ++ e);
      touch.

(** The [result] object of a directory transfer and the three ways the
    loops change it. *)
Definition emptyResult : TransferResult := mkTransferResult true [] [] ∅.

(** [result.transferred.push(p)] *)
Definition pushTransferred (p : jsstring) (r : TransferResult) : TransferResult :=
  mkTransferResult (success r) (transferred r ++ [p]) (failed r) (errors r).

(** The three statements after a recursive call: both lists are extended
    and [Object.assign] copies the child's errors over the parent's. *)
Definition mergeResult (sub r : TransferResult) : TransferResult :=
  mkTransferResult (success r) (transferred r ++ transferred sub)
                   (failed r ++ failed sub) (errors sub ∪ errors r).

(** The [catch] block. *)
Definition recordFailure (p message : jsstring) (r : TransferResult)
    : TransferResult :=
  mkTransferResult false (transferred r) (failed r ++ [p])
                   (<[p := message]> (errors r)).

(** [for (const x of l) { ... }] around a mutable [result]. *)
Fixpoint forOfResult {A} (l : list A)
    (body : A -> TransferResult -> M W TransferResult) (r : TransferResult)
    : M W TransferResult :=
  match l with
  | [] => ret r
  | x :: l' => await r' <- body x r; forOfResult l' body r'
  end.

Fixpoint uploadDirectory (fuel : nat) (localPath remotePath : jsstring)
    (options : option FileTransferOptions) : M W TransferResult :=
  match fuel with
  | O => fun s => (s, OutOfFuel)
  | S fuel' =>
      do mkdir remotePath (Some true) None;
      await entries <- query (fs_readdirSync localPath) (fun e => e);
      forOfResult entries (fun entry result =>
        let localEntryPath := path_join localPath (de_name entry) in
        let remoteEntryPath := remotePath ++ js "/" ++ de_name entry in
        tryCatch
          (if de_isDirectory entry then
             await subResult <-
               uploadDirectory fuel' localEntryPath remoteEntryPath options;
             ret (mergeResult subResult result)
           else
             do uploadFile localEntryPath remoteEntryPath options;
             ret (pushTransferred remoteEntryPath result))
          (fun message => ret (recordFailure remoteEntryPath message result)))
        emptyResult
  end.

Fixpoint downloadDirectory (fuel : nat) (remotePath localPath : jsstring)
    (options : option FileTransferOptions) : M W TransferResult :=
  match fuel with
  | O => fun s => (s, OutOfFuel)
  | S fuel' =>
      await present <- existsSync localPath;
      do (if negb present then command (fs_mkdirSync localPath) (fun e => e)
          else ret tt);
      await listing <- listDirectory remotePath;
      forOfResult (entries listing) (fun entry result =>
        let remoteEntryPath := remotePath ++ js "/" ++ filename entry in
        let localEntryPath := path_join localPath (filename entry) in
        tryCatch
          (if isDirectory entry then
             await subResult <-
               downloadDirectory fuel' remoteEntryPath localEntryPath options;
             ret (mergeResult subResult result)
           else
             do downloadFile remoteEntryPath localEntryPath options;
             ret (pushTransferred localEntryPath result))
          (fun message => ret (recordFailure localEntryPath message result)))
        emptyResult
  end.

End Operations.

End SFTPOperations.

(** ** A world to run the file operations in

    A remote and a local tree of files and directories and a clock, as one
    instance of [SFTPOperations.Env].  The remote side answers like an SFTP
    server does: [No such file] for a missing path, [Failure] for every
    other refusal. *)

Module TreeWorld.

Import SFTPOperations.

Inductive node :=
| File
| Dir (children : list (jsstring * node)).

(** The requests the SFTP subsystem received that change the remote side. *)
Inductive Call :=
| Mkdir (p : jsstring)
| Unlink (p : jsstring)
| Rmdir (p : jsstring)
| Rename (p p' : jsstring)
| FastPut (localPath remotePath : jsstring)
| FastGet (remotePath localPath : jsstring).

Record t := mkWorld {
  remote : node;
  local : node;
  clock : Z;
  calls : list Call
}.

#[export] Instance Call_eq_dec : EqDecision Call.
Proof. solve_decision. Defined.

Definition logCall (c : Call) (w : t) : t :=
  mkWorld (remote w) (local w) (clock w) (calls w ++ [c]).

(** The segments a path names; both sides resolve a path from their root. *)
Definition resolve (p : jsstring) : list jsstring :=
  filter (fun part => truthy part = true) (split 47 p).

Fixpoint assoc (x : jsstring) (cs : list (jsstring * node)) : option node :=
  match cs with
  | [] => None
  | (k, v) :: r => if bool_decide (k = x) then Some v else assoc x r
  end.

(** Replace the child called [x], or add it behind the others. *)
Fixpoint setKey (x : jsstring) (v : node) (cs : list (jsstring * node))
    : list (jsstring * node) :=
  match cs with
  | [] => [(x, v)]
  | (k, v') :: r =>
      if bool_decide (k = x) then (x, v) :: r else (k, v') :: setKey x v r
  end.

Fixpoint removeKey (x : jsstring) (cs : list (jsstring * node))
    : list (jsstring * node) :=
  match cs with
  | [] => []
  | (k, v) :: r =>
      if bool_decide (k = x) then r else (k, v) :: removeKey x r
  end.

Fixpoint nodeAt (q : list jsstring) (n : node) : option node :=
  match q with
  | [] => Some n
  | x :: q' =>
      match n with
      | Dir cs =>
          match assoc x cs with
          | Some c => nodeAt q' c
          | None => None
          end
      | _ => None
      end
  end.

(** Change the children of the directory at [q]. *)
Fixpoint alterDir
    (f : list (jsstring * node) -> option (list (jsstring * node)))
    (q : list jsstring) (n : node) : option node :=
  match n with
  | Dir cs =>
      match q with
      | [] => Dir <$> f cs
      | x :: q' =>
          match assoc x cs with
          | Some c =>
              match alterDir f q' c with
              | Some c' => Some (Dir (setKey x c' cs))
              | None => None
              end
          | None => None
          end
      end
  | _ => None
  end.

(** A path as the segments of its directory and its last segment. *)
Fixpoint unsnoc (q : list jsstring) : option (list jsstring * jsstring) :=
  match q with
  | [] => None
  | [x] => Some ([], x)
  | x :: q' =>
      match unsnoc q' with
      | Some (d, y) => Some (x :: d, y)
      | None => None
      end
  end.

(** Change the entry [x] of the directory that holds the path [q]. *)
Definition alterEntry
    (f : jsstring -> list (jsstring * node) -> option (list (jsstring * node)))
    (q : list jsstring) (n : node) : option node :=
  match unsnoc q with
  | Some (d, x) => alterDir (f x) d n
  | None => None
  end.

Definition unlinkEntry (x : jsstring) (cs : list (jsstring * node))
    : option (list (jsstring * node)) :=
  match assoc x cs with
  | Some File => Some (removeKey x cs)
  | _ => None
  end.

Definition rmdirEntry (x : jsstring) (cs : list (jsstring * node))
    : option (list (jsstring * node)) :=
  match assoc x cs with
  | Some (Dir []) => Some (removeKey x cs)
  | _ => None
  end.

Definition mkdirEntry (x : jsstring) (cs : list (jsstring * node))
    : option (list (jsstring * node)) :=
  match assoc x cs with
  | None => Some (cs ++ [(x, Dir [])])
  | Some _ => None
  end.

(** Writing a file creates it or replaces a file of that name. *)
Definition putEntry (x : jsstring) (cs : list (jsstring * node))
    : option (list (jsstring * node)) :=
  match assoc x cs with
  | Some (Dir _) => None
  | _ => Some (setKey x File cs)
  end.

Definition modeOf (n : node) : Z :=
  match n with
  | File => 33188
  | Dir _ => 16877
  end.

Definition statsOf (n : node) : Stats := mkStats (modeOf n) 0 0 0 0 0.

Definition attrsOf (n : node) : Attributes :=
  mkAttributes (Some (modeOf n)) (Some 0) (Some 0) (Some 0) (Some 0) (Some 0).

Definition isDir (n : node) : bool :=
  match n with Dir _ => true | _ => false end.

(** The message of a refused request. *)
Definition refusal (q : list jsstring) (n : node) : jsstring :=
  match nodeAt q n with
  | None => js "No such file"
  | Some _ => js "Failure"
  end.

Definition onRemote (f : node -> option node) (q : list jsstring) (w : t)
    : t * option jsstring :=
  match f (remote w) with
  | Some r => (mkWorld r (local w) (clock w) (calls w), None)
  | None => (w, Some (refusal q (remote w)))
  end.

Definition onLocal (f : node -> option node) (message : jsstring) (w : t)
    : t * option jsstring :=
  match f (local w) with
  | Some l => (mkWorld (remote w) l (clock w) (calls w), None)
  | None => (w, Some message)
  end.

Definition serveStat (p : jsstring) (w : t) : jsstring + Stats :=
  match nodeAt (resolve p) (remote w) with
  | Some n => inr (statsOf n)
  | None => inl (js "No such file")
  end.

Definition serveReaddir (p : jsstring) (w : t) : jsstring + list FileEntry :=
  match nodeAt (resolve p) (remote w) with
  | Some (Dir cs) => inr ((fun kv => mkFileEntry kv.1 kv.1 (attrsOf kv.2)) <$> cs)
  | Some _ => inl (js "Failure")
  | None => inl (js "No such file")
  end.

Definition serveRename (p p' : jsstring) (w : t) : t * option jsstring :=
  match nodeAt (resolve p) (remote w), nodeAt (resolve p') (remote w) with
  | Some n, None =>
      match alterEntry (fun x cs => Some (removeKey x cs)) (resolve p) (remote w) with
      | Some r =>
          onRemote (fun _ => alterEntry (fun x cs => Some (setKey x n cs)) (resolve p') r)
                   (resolve p') w
      | None => (w, Some (js "Failure"))
      end
  | Some _, Some _ => (w, Some (js "Failure"))
  | None, _ => (w, Some (js "No such file"))
  end.

Definition serveFastPut (localPath remotePath : jsstring) (mode : option Z) (w : t)
    : t * option jsstring :=
  match nodeAt (resolve localPath) (local w) with
  | Some File => onRemote (alterEntry putEntry (resolve remotePath)) (resolve remotePath) w
  | _ => (w, Some (js "No such file"))
  end.

Definition serveFastGet (remotePath localPath : jsstring) (w : t)
    : t * option jsstring :=
  match nodeAt (resolve remotePath) (remote w) with
  | Some File => onLocal (alterEntry putEntry (resolve localPath)) (js "ENOENT") w
  | Some _ => (w, Some (js "Failure"))
  | None => (w, Some (js "No such file"))
  end.

Definition localReaddir (p : jsstring) (w : t) : jsstring + list Dirent :=
  match nodeAt (resolve p) (local w) with
  | Some (Dir cs) => inr ((fun kv => mkDirent kv.1 (isDir kv.2)) <$> cs)
  | Some _ => inl (js "ENOTDIR")
  | None => inl (js "ENOENT")
  end.

(** [fs.mkdirSync(p, { recursive: true })]: every missing directory on the
    way is made. *)
Fixpoint mkdirP (q : list jsstring) (n : node) : option node :=
  match n with
  | Dir cs =>
      match q with
      | [] => Some n
      | x :: q' =>
          match mkdirP q' (default (Dir []) (assoc x cs)) with
          | Some c => Some (Dir (setKey x c cs))
          | None => None
          end
      end
  | _ => None
  end.

Definition joinPath (a b : jsstring) : jsstring := a ++ js "/" ++ b.

Definition dirnameOf (p : jsstring) : jsstring :=
  match unsnoc (resolve p) with
  | Some (d, _) => concat ((fun x => js "/" ++ x) <$> d)
  | None => js "/"
  end.

Definition basenameOf (p : jsstring) : jsstring :=
  match unsnoc (resolve p) with
  | Some (_, x) => x
  | None => []
  end.

#[export] Instance env : Env t := {|
  Date_now := clock;
  sftp_stat := serveStat;
  sftp_readdir := serveReaddir;
  sftp_mkdir := fun p _ w =>
    onRemote (alterEntry mkdirEntry (resolve p)) (resolve p) (logCall (Mkdir p) w);
  sftp_unlink := fun p w =>
    onRemote (alterEntry unlinkEntry (resolve p)) (resolve p) (logCall (Unlink p) w);
  sftp_rmdir := fun p w =>
    onRemote (alterEntry rmdirEntry (resolve p)) (resolve p) (logCall (Rmdir p) w);
  sftp_rename := fun p p' w => serveRename p p' (logCall (Rename p p') w);
  sftp_fastPut := fun l r mode w => serveFastPut l r mode (logCall (FastPut l r) w);
  sftp_fastGet := fun r l w => serveFastGet r l (logCall (FastGet r l) w);
  fs_existsSync := fun p w => bool_decide (is_Some (nodeAt (resolve p) (local w)));
  fs_readdirSync := localReaddir;
  fs_mkdirSync := fun p => onLocal (mkdirP (resolve p)) (js "ENOTDIR");
  path_join := joinPath;
  path_dirname := dirnameOf;
  path_basename := basenameOf
|}.

(** Nesting depth of a tree: the recursion depth its removal needs. *)
Fixpoint depth (n : node) : nat :=
  match n with
  | Dir cs => S (foldr (fun kv m => Nat.max (depth kv.2) m) O cs)
  | _ => O
  end.

(** A name is one segment of a path: not empty and without a slash. *)
Definition validName (x : jsstring) : bool :=
  truthy x && forallb (fun c => negb (c =? 47)%N) x.

(** Well-formed trees: the names of a directory are valid and distinct. *)
Fixpoint wf (n : node) : bool :=
  match n with
  | Dir cs =>
      bool_decide (NoDup cs.*1) &&
      forallb (fun kv => validName kv.1 && wf kv.2) cs
  | _ => true
  end.

End TreeWorld.

(** * Vocabulary of the properties *)

(** ** Mode-bit classification *)

Module ClassificationSpec.
Import SFTPOperations.

Definition classification (f : FileInfo) : bool * bool * bool :=
  (isDirectory f, isFile f, isSymbolicLink f).

Definition exactlyOne (c : bool * bool * bool) : Prop :=
  c = (true, false, false) \/ c = (false, true, false) \/ c = (false, false, true).

(** The masked type field is one of the three type constants. *)
Definition validType (mode : Z) : Prop :=
  Z.land mode S_IFMT = S_IFDIR \/ Z.land mode S_IFMT = S_IFREG \/
  Z.land mode S_IFMT = S_IFLNK.

End ClassificationSpec.

(** ** Session registry *)

Module RegistrySpec.
Import SessionManager.

(** No connected session of the registry is found for the target. *)
Definition noLiveMatch (mgr : t) (c : SSHCredentials) : Prop :=
  forall i s, findExistingSession mgr c = Some (i, s) -> isConnected s = false.

Definition underLimit (mgr : t) : Prop :=
  Z.of_nat (length (sessions mgr)) < maxSessions mgr.

(** Every registered session is connected: [closeSession] takes a session
    out of the map when it disconnects it. *)
Definition allConnected (mgr : t) : Prop :=
  Forall (fun kv => isConnected kv.2 = true) (sessions mgr).

End RegistrySpec.

Module RegistryInvariants.
Import SessionManager.

(** The keys of the map are distinct, as in any [Map]. *)
Definition keysUnique (mgr : t) : Prop := NoDup (sessions mgr).*1.

(** Every session is registered under its own identifier. *)
Definition keysAreIds (mgr : t) : Prop :=
  Forall (fun kv => id kv.2 = kv.1) (sessions mgr).

Definition consistent (mgr : t) : Prop :=
  keysUnique mgr /\ keysAreIds mgr /\ RegistrySpec.allConnected mgr.

(** [now - session.lastActivity > this.sessionTimeout] *)
Definition expired (mgr : t) (now : Z) (s : SSHSession) : Prop :=
  sessionTimeout mgr < now - lastActivity s.

#[export] Instance expired_dec mgr now s : Decision (expired mgr now s).
Proof. unfold expired. apply _. Defined.

(** What happens to a registry during its life: the calls of its methods,
    and the writes the executors and the file operations make to a session
    object that is still registered. *)
Inductive Op : Type :=
  | OpCreateSession (c : SSHCredentials) (env : Env)
  | OpGetSession (sessionId : jsstring) (now : Z)
  | OpCloseSession (sessionId : jsstring)
  | OpCloseAllSessions
  | OpCleanup (now : Z)
  | OpCommandClosed (sessionId : jsstring) (now : Z)
  | OpFileOperation (sessionId : jsstring) (now : Z).

(** A write to the session object registered under [sessionId]. *)
Definition update (sessionId : jsstring) (f : SSHSession -> SSHSession)
    (mgr : t) : t :=
  match mapGet sessionId (sessions mgr) with
  | Some s => mkManager (mapSet sessionId (f s) (sessions mgr))
                        (sessionTimeout mgr) (maxSessions mgr)
  | None => mgr
  end.

Definition applyOp (mgr : t) (op : Op) : t :=
  match op with
  | OpCreateSession c env => (createSession mgr c env).1.1
  | OpGetSession sessionId now => (getSession mgr sessionId now).1
  | OpCloseSession sessionId => (closeSession mgr sessionId).1.1
  | OpCloseAllSessions => (closeAllSessions mgr).1.1
  | OpCleanup now => (cleanupExpiredSessions mgr now).1
  | OpCommandClosed sessionId now =>
      update sessionId (fun s => set_lastActivity now (incr_commandCount s)) mgr
  | OpFileOperation sessionId now => update sessionId (set_lastActivity now) mgr
  end.

(** The registry a new manager has become after [ops]. *)
Definition reached (sessionTimeout maxSessions : option Z) (ops : list Op) : t :=
  fold_left applyOp ops (new sessionTimeout maxSessions).

End RegistryInvariants.

(** ** Command execution *)

Module ExecutorSpec.
Import SSHExecutor.

Definition asciiLower (c : N) : N :=
  if ((65 <=? c) && (c <=? 90))%N then (c + 32)%N else c.

(** [text.toLowerCase().includes(pat)], for ASCII letters. *)
Definition includesIgnoringCase (text pat : jsstring) : bool :=
  includes (asciiLower <$> text) pat.

(** What a stream delivers between its opening and its close event. *)
Inductive Chunk :=
| OutChunk (text : jsstring)
| ErrChunk (text : jsstring).

Definition chunkEvent (c : Chunk) : Event :=
  match c with
  | OutChunk text => StreamData text
  | ErrChunk text => StderrData text
  end.

(** A whole exchange: the stream opens, delivers [chunks] and closes;
    [later] is whatever the event loop delivers after that. *)
Definition exchange (chunks : list Chunk) (c : option Z) (sg : option jsstring)
    (now : Z) (later : list Event) : list Event :=
  ExecCallback None :: (chunkEvent <$> chunks) ++ StreamClose c sg now :: later.

(** The standard-output text of the chunks without the first chunk that
    looks like a prompt ([sent] tells that one was already left out). *)
Fixpoint keptOut (sent : bool) (chunks : list Chunk) : jsstring :=
  match chunks with
  | [] => []
  | OutChunk text :: r =>
      if negb sent && looksLikePrompt text then keptOut true r
      else text ++ keptOut sent r
  | ErrChunk _ :: r => keptOut sent r
  end.

Fixpoint errText (chunks : list Chunk) : jsstring :=
  match chunks with
  | [] => []
  | ErrChunk text :: r => text ++ errText r
  | OutChunk _ :: r => errText r
  end.

(** The standard-error text with the two prompt patterns taken out. *)
Definition strippedErr (chunks : list Chunk) : jsstring :=
  stripAll matchPasswordColon (stripAll matchSudoPrompt (errText chunks)).

(** All the standard-output text of the chunks. *)
Fixpoint outText (chunks : list Chunk) : jsstring :=
  match chunks with
  | [] => []
  | OutChunk text :: r => text ++ outText r
  | ErrChunk _ :: r => outText r
  end.

(** A text neither starts nor ends with white space. *)
Definition noSurroundingWhiteSpace (text : jsstring) : Prop :=
  (forall c, head text = Some c -> isWhiteSpace c = false)
  /\ (forall c, last text = Some c -> isWhiteSpace c = false).

(** Blanks and operator characters, which end a word of a shell command. *)
Definition isShellDelimiter (c : N) : bool :=
  ((c =? 32) || (c =? 9) || (c =? 10) || (c =? 124) || (c =? 38) ||
   (c =? 59) || (c =? 60) || (c =? 62) || (c =? 40) || (c =? 41))%N.

(** Modelled from the POSIX shell's quoting rules (the remote shell is not
    part of this repository): the word at the start of [s] with its quoting
    removed, and what follows it.  Between single quotes every character
    stands for itself; outside them a backslash makes the next character
    stand for itself and an unquoted delimiter ends the word.  A quote left
    open has no reading. *)
Fixpoint shellWord (quoted : bool) (s : jsstring) : option (jsstring * jsstring) :=
  match s with
  | [] => if quoted then None else Some ([], [])
  | c :: r =>
      if quoted then
        if (c =? 39)%N then shellWord false r
        else (fun w => (c :: w.1, w.2)) <$> shellWord true r
      else if (c =? 39)%N then shellWord true r
      else if (c =? 92)%N then
        match r with
        | [] => Some ([], [])
        | d :: r' => (fun w => (d :: w.1, w.2)) <$> shellWord false r'
        end
      else if isShellDelimiter c then Some ([], s)
      else (fun w => (c :: w.1, w.2)) <$> shellWord false r
  end.

(** Both texts of a result are free of white space at their ends. *)
Definition trimmedResult (r : CommandResult) : Prop :=
  noSurroundingWhiteSpace (stdout r) /\ noSurroundingWhiteSpace (stderr r).

Definition resolvedTrimmed (st : Run) : Prop :=
  forall r, promise st = Resolved r -> trimmedResult r.

End ExecutorSpec.

(** ** File operations *)

Module MkdirSpec.
Import SFTPOperations.

Section Prefixes.

Context {W : Type} `{Env W}.

(** A remote path exists when [sftp.stat] answers for it. *)
Definition statSucceeds (w : W) (q : jsstring) : bool :=
  match sftp_stat q w with
  | inr _ => true
  | inl _ => false
  end.

(** The cumulative prefixes [mkdirRecursive] visits. *)
Fixpoint prefixesFrom (currentPath : jsstring) (parts : list jsstring)
    : list jsstring :=
  match parts with
  | [] => []
  | part :: parts' =>
      nextPath currentPath part :: prefixesFrom (nextPath currentPath part) parts'
  end.

Definition cumulativePrefixes (remotePath : jsstring) : list jsstring :=
  prefixesFrom (startPath remotePath) (pathParts remotePath).

Definition allPrefixesExist (w : W) (remotePath : jsstring) : bool :=
  forallb (statSucceeds w) (cumulativePrefixes remotePath).

End Prefixes.

(** An operation leaves the session's SFTP handle in place. *)
Definition keepsHandle (W : Type) {A : Type} (m : M W A) : Prop :=
  forall st, sftp (session (m st).1) = sftp (session st).

End MkdirSpec.

Module TransferSpec.

(** The flag of a result is raised unless something failed. *)
Definition flagCovers (r : TransferResult) : Prop :=
  failed r = [] -> success r = true.


(** The message of [getSFTP] for a session without SFTP handle. *)
Definition notInitialized : jsstring := js "SFTP client not initialized".

(** The promise of a call was rejected. *)
Definition rejected {A : Type} (o : SFTPOperations.Outcome A) : bool :=
  match o with
  | SFTPOperations.Throw _ => true
  | _ => false
  end.

End TransferSpec.

Module RemoveSpec.
Import SFTPOperations TreeWorld.

(** Put [n] where the path [q] leads. *)
Fixpoint setAt (q : list jsstring) (n : node) (root : node) : node :=
  match q with
  | [] => n
  | x :: q' =>
      match root with
      | Dir cs =>
          match assoc x cs with
          | Some c => Dir (setKey x (setAt q' n c) cs)
          | None => root
          end
      | _ => root
      end
  end.

(** The requests a recursive removal of the tree [n] at [p] makes: for a
    directory those for its entries, in the order of the listing, then the
    removal of the directory itself. *)
Fixpoint removalCalls (p : jsstring) (n : node) : list Call :=
  match n with
  | Dir cs =>
      concat ((fun kv => removalCalls (p ++ js "/" ++ kv.1) kv.2) <$> cs)
      ++ [Rmdir p]
  | _ => [Unlink p]
  end.

(** Some request [a] is in the log and a request [b] comes behind the first
    such [a]. *)
Fixpoint callsBefore (a b : Call) (l : list Call) : bool :=
  match l with
  | [] => false
  | c :: r => if bool_decide (c = a) then bool_decide (b ∈ r) else callsBefore a b r
  end.

(** The message [remove] rejects with when the server refuses [rmdir]. *)
Definition refusedMessage : jsstring :=
  js "Failed to remove: " ++ js "Failed to remove directory: " ++ js "Failure".

(** How one state follows another: the remote tree afterwards, the requests
    added, and what stays. *)
Definition reaches (st st' : State TreeWorld.t) (r : node) (cl : list Call) : Prop :=
  remote (world st') = r
  /\ calls (world st') = calls (world st) ++ cl
  /\ local (world st') = local (world st)
  /\ clock (world st') = clock (world st)
  /\ sftp (session st') = sftp (session st).

(** The [FileInfo] the listing gives for a child. *)
Definition entryInfo (kv : jsstring * node) : FileInfo :=
  attrsToFileInfo kv.1 (attrsOf kv.2) (Some kv.1).

(** What the loop needs of an entry still to be removed. *)
Definition removable (fuel : nat) (kv : jsstring * node) : Prop :=
  validName kv.1 = true /\ wf kv.2 = true /\ (depth kv.2 <= fuel)%nat.

Definition entryCalls (p : jsstring) (kv : jsstring * node) : list Call :=
  removalCalls (p ++ js "/" ++ kv.1) kv.2.

(** The body of the loop of [removeRecursive]. *)
Definition removeEntry (fuel : nat) (p : jsstring) (entry : FileInfo)
    : M TreeWorld.t unit :=
  if isDirectory entry then removeRecursive fuel (p ++ js "/" ++ filename entry)
  else unlink (p ++ js "/" ++ filename entry).

End RemoveSpec.

(** ** Inputs of the examples *)

Module Examples.
Import SFTPOperations TreeWorld.

Definition aSession : SSHSession :=
  mkSession (js "id-1")
    (mkCredentials (js "example.org") (Some 22) (js "alice") None None None None None)
    1 (Some 1%nat) true 1000 1000 0.

(** Credentials that leave the port to its default. *)
Definition defaultPortCreds : SSHCredentials :=
  mkCredentials (js "example.org") None (js "alice") (Some (js "secret"))
                None None None None.

Definition firstEnv : SessionManager.Env :=
  SessionManager.mkEnv (js "id-1") 1 1000 None SessionManager.ClientReady (inr 1%nat).

Definition secondEnv : SessionManager.Env :=
  SessionManager.mkEnv (js "id-2") 2 2000 None SessionManager.ClientReady (inr 2%nat).

Definition refusedEnv : SessionManager.Env :=
  SessionManager.mkEnv (js "id-3") 3 3000 None
    (SessionManager.ClientError (js "All configured authentication methods failed"))
    (inr 3%nat).

Definition noOptions : SSHExecutor.CommandOptions :=
  SSHExecutor.mkOptions None None None.

Definition withPassword (pw : jsstring) : SSHExecutor.CommandOptions :=
  SSHExecutor.mkOptions None None (Some pw).

(** A remote tree [/tmp/{a, b/{c, d/}}]. *)
Definition subEntries : list (jsstring * node) :=
  [(js "c", File); (js "d", Dir [])].

Definition tmpEntries : list (jsstring * node) :=
  [(js "a", File); (js "b", Dir subEntries)].

Definition tmpTree : node := Dir tmpEntries.

Definition remoteTree : node := Dir [(js "tmp", tmpTree)].

Definition aWorld : TreeWorld.t := mkWorld remoteTree (Dir []) 5000 [].

Definition aState : State TreeWorld.t := mkState aWorld aSession.

(** A session object whose SFTP handle is [null]. *)
Definition detachedSession : SSHSession :=
  mkSession (js "id-1")
    (mkCredentials (js "example.org") (Some 22) (js "alice") None None None None None)
    1 None true 1000 1000 0.

Definition detachedState : State TreeWorld.t := mkState aWorld detachedSession.

(** A local tree [site/{index.html, img/{logo.png, icon.png}}] to upload to
    [/srv], where [/srv/img/logo.png] already exists. *)
Definition uploadWorld : TreeWorld.t :=
  mkWorld
    (Dir [(js "srv", Dir [(js "img", Dir [(js "logo.png", File)])])])
    (Dir [(js "site", Dir [(js "index.html", File);
                           (js "img", Dir [(js "logo.png", File);
                                           (js "icon.png", File)])])])
    5000 [].

(** A remote tree [/data/{a.txt, sub/{f.txt, g.txt}}] to download to [/dl],
    where [/dl/sub/f.txt] already exists. *)
Definition downloadWorld : TreeWorld.t :=
  mkWorld
    (Dir [(js "data", Dir [(js "a.txt", File);
                           (js "sub", Dir [(js "f.txt", File);
                                           (js "g.txt", File)])])])
    (Dir [(js "dl", Dir [(js "sub", Dir [(js "f.txt", File)])])])
    5000 [].

End Examples.

(** * Properties *)

(** ** JavaScript strings *)

Section JsStrings.

Lemma startsWith_spec (s p : jsstring) :
  startsWith s p = true <-> exists b, s = p ++ b.
Proof.
  revert s. induction p as [|c p IH]; intros s; cbn.
  - split; [eauto | reflexivity].
  - destruct s as [|d s].
    + split; [discriminate | intros [b Hb]; discriminate].
    + rewrite andb_true_iff, N.eqb_eq, IH. split.
      * intros [-> [b ->]]. eauto.
      * intros [b Hb]. injection Hb as -> ->. eauto.
Qed.

Lemma includes_spec (s p : jsstring) :
  includes s p = true <-> exists a b, s = a ++ p ++ b.
Proof.
  induction s as [|c s IH].
  - cbn. rewrite orb_false_r, startsWith_spec. split.
    + intros [b Hb]. exists [], b. exact Hb.
    + intros [a [b Hab]]. destruct a; [eauto | discriminate].
  - cbn [includes]. rewrite orb_true_iff, startsWith_spec, IH. split.
    + intros [[b Hb] | [a [b Hab]]].
      * exists [], b. exact Hb.
      * exists (c :: a), b. rewrite Hab. reflexivity.
    + intros [a [b Hab]]. destruct a as [|d a].
      * left. exists b. exact Hab.
      * right. injection Hab as -> ->. eauto.
Qed.

Lemma includes_in_context (a s b p : jsstring) :
  includes s p = true -> includes (a ++ s ++ b) p = true.
Proof.
  rewrite !includes_spec. intros [a' [b' ->]].
  exists (a ++ a'), (b' ++ b). by rewrite <- !app_assoc.
Qed.

Lemma trimStart_suffix (s : jsstring) : exists ws, s = ws ++ trimStart s.
Proof.
  induction s as [|c s [ws IH]]; cbn.
  - by exists [].
  - destruct (isWhiteSpace c).
    + exists (c :: ws). by rewrite IH at 1.
    + by exists [].
Qed.

Lemma trimEnd_prefix (s : jsstring) : exists ws, s = trimEnd s ++ ws.
Proof.
  unfold trimEnd. destruct (trimStart_suffix (rev s)) as [ws Hws].
  exists (rev ws). rewrite <- rev_app_distr, <- Hws. by rewrite rev_involutive.
Qed.

Lemma trim_within (s : jsstring) : exists a b, s = a ++ trim s ++ b.
Proof.
  unfold trim. destruct (trimStart_suffix s) as [a Ha].
  destruct (trimEnd_prefix (trimStart s)) as [b Hb].
  exists a, b. by rewrite <- Hb.
Qed.

Lemma includes_trim (s p : jsstring) :
  includes (trim s) p = true -> includes s p = true.
Proof.
  intros Hin. destruct (trim_within s) as [a [b Hs]].
  rewrite Hs. by apply includes_in_context.
Qed.

Lemma not_includes_trim (s p : jsstring) :
  includes s p = false -> includes (trim s) p = false.
Proof.
  intros Hs. destruct (includes (trim s) p) eqn:E; [|reflexivity].
  apply includes_trim in E. congruence.
Qed.

End JsStrings.

(** ** Mode-bit classification *)

Section Classification.

Import SFTPOperations ClassificationSpec.

(** C9. For every mode word, the classification [statsToFileInfo] gives a
    stat result equals the one [attrsToFileInfo] gives a directory-listing
    entry carrying the same word, and when the masked type field of the word
    is one of the three type constants exactly one of directory, regular
    file and symbolic link holds. *)
Theorem classification_agrees (name name' : jsstring) (long long' : option jsstring)
    (stats : Stats) (attrs : Attributes) :
  at_mode attrs = Some (st_mode stats) ->
  classification (statsToFileInfo name stats long) =
  classification (attrsToFileInfo name' attrs long')
  /\ (validType (st_mode stats) ->
      exactlyOne (classification (attrsToFileInfo name' attrs long'))).
Proof.
  intros Hmode. unfold classification, statsToFileInfo, attrsToFileInfo. cbn.
  rewrite Hmode. cbn. split.
  - reflexivity.
  - unfold validType, exactlyOne, isDirectoryMode, isFileMode, isSymlinkMode.
    intros [E | [E | E]]; rewrite E; cbn; auto.
Qed.

Lemma classification_agrees_witness :
  classification (statsToFileInfo (js "f") (mkStats 33188 42 0 0 0 0) None) =
  classification
    (attrsToFileInfo (js "f") (mkAttributes (Some 33188) None None None None None) None)
  /\ exactlyOne
       (classification
          (attrsToFileInfo (js "f")
             (mkAttributes (Some 33188) None None None None None) None)).
Proof.
  destruct (classification_agrees (js "f") (js "f") None None
              (mkStats 33188 42 0 0 0 0)
              (mkAttributes (Some 33188) None None None None None) eq_refl)
    as [H1 H2].
  split; [exact H1 | apply H2; right; left; reflexivity].
Defined.

End Classification.

(** ** Session registry *)

Section Registry.

Import SessionManager RegistrySpec Examples.

Lemma createSession_fresh mgr c env :
  noLiveMatch mgr c -> createSession mgr c env = openSession mgr c env.
Proof.
  intros Hno. unfold createSession.
  destruct (findExistingSession mgr c) as [[i s]|] eqn:Hf; [|reflexivity].
  rewrite (Hno i s Hf). reflexivity.
Qed.

Lemma openSession_error_unchanged mgr c env m' eff e :
  openSession mgr c env = (m', eff, inl e) -> m' = mgr.
Proof.
  unfold openSession. destruct (_ >=? _); [congruence|].
  destruct (establish c env) as [eff0 [m|h]]; congruence.
Qed.

Lemma createSession_error_unchanged mgr c env m' eff e :
  createSession mgr c env = (m', eff, inl e) -> m' = mgr.
Proof.
  unfold createSession.
  destruct (findExistingSession mgr c) as [[i s]|];
    [destruct (isConnected s); [congruence|] |];
    apply openSession_error_unchanged.
Qed.

(** C7. When [createSession] fails, the registry is what it was before
    the call; and when the call gets as far as connecting (no connected
    session matches, the limit is not reached) and authentication or the
    opening of the SFTP subsystem fails, [client.end()] is the last call made
    on the client and the caller gets the failure, with its message. *)
Theorem createSession_failure_releases (mgr : t) (c : SSHCredentials) (env : Env) :
  (forall m' eff e, createSession mgr c env = (m', eff, inl e) -> m' = mgr)
  /\ (noLiveMatch mgr c -> underLimit mgr ->
      forall eff0 message, establish c env = (eff0, inl message) ->
        createSession mgr c env =
          (mgr, eff0 ++ [ClientEnd (env_client env)], inl (failurePrefix ++ message))).
Proof.
  split.
  - intros m' eff e. apply createSession_error_unchanged.
  - intros Hno Hlim eff0 message He.
    rewrite createSession_fresh by exact Hno.
    unfold openSession. unfold underLimit in Hlim.
    destruct (Z.geb_spec (Z.of_nat (length (sessions mgr))) (maxSessions mgr)); [lia|].
    rewrite He. reflexivity.
Qed.

Lemma createSession_failure_releases_witness :
  createSession (new None None) defaultPortCreds refusedEnv =
    (new None None,
     [ClientConnect 3 (js "example.org") 22 (js "alice"); ClientEnd 3],
     inl (failurePrefix ++ js "All configured authentication methods failed")).
Proof.
  apply (proj2 (createSession_failure_releases (new None None) defaultPortCreds refusedEnv)
           ltac:(intros i s Hf; vm_compute in Hf; discriminate)
           ltac:(unfold underLimit; vm_compute; reflexivity)
           [ClientConnect 3 (js "example.org") 22 (js "alice")]
           (js "All configured authentication methods failed")).
  vm_compute. reflexivity.
Defined.

(** C1, at an input where the code departs from it: two requests for the
    same host and user that both leave the port to its default.  The session
    of the first is still connected, yet the second request connects again
    and returns another identifier. *)
Theorem createSession_default_port_not_reused :
  exists m1 eff1 m2 eff2,
    createSession (new None None) defaultPortCreds firstEnv = (m1, eff1, inr (js "id-1"))
    /\ isConnected <$> mapGet (js "id-1") (sessions m1) = Some true
    /\ createSession m1 defaultPortCreds secondEnv = (m2, eff2, inr (js "id-2"))
    /\ opensConnection eff2 = true
    /\ length (sessions m2) = 2%nat.
Proof.
  do 4 eexists. split; [vm_compute; reflexivity|].
  split; [vm_compute; reflexivity|].
  split; [vm_compute; reflexivity|].
  split; vm_compute; reflexivity.
Qed.


(** *** Reuse with an explicit port *)

Lemma findFrom_ge k l c i s : findFrom k l c = Some (i, s) -> (k <= i)%nat.
Proof.
  revert k. induction l as [|[key v] l IH]; intros k; cbn; [done|].
  destruct (sameTarget (credentials v) c).
  - intros [= <- _]. lia.
  - intros Hf. apply IH in Hf. lia.
Qed.

Lemma findFrom_elem k l c i s : findFrom k l c = Some (i, s) -> exists key, (key, s) ∈ l.
Proof.
  revert k. induction l as [|[key v] l IH]; intros k; cbn; [done|].
  destruct (sameTarget (credentials v) c).
  - intros [= _ <-]. exists key. left.
  - intros [key' Hin]%IH. exists key'. by right.
Qed.

Lemma findFrom_touch k l c i s now :
  findFrom k l c = Some (i, s) ->
  findFrom k (alter (fun kv => (kv.1, set_lastActivity now kv.2)) (i - k)%nat l) c
  = Some (i, set_lastActivity now s).
Proof.
  revert k. induction l as [|[key v] l IH]; intros k; cbn; [done|].
  destruct (sameTarget (credentials v) c) eqn:E.
  - intros [= <- <-]. rewrite Nat.sub_diag. cbn. by rewrite E.
  - intros Hf. pose proof (findFrom_ge _ _ _ _ _ Hf) as Hge.
    replace (i - k)%nat with (S (i - S k)) by lia. cbn. rewrite E. by apply IH.
Qed.

Lemma findFrom_mapSet k l c key s :
  findFrom k l c = None -> sameTarget (credentials s) c = true ->
  exists i, findFrom k (mapSet key s l) c = Some (i, s).
Proof.
  intros Hnone Hs. revert k Hnone.
  induction l as [|[key' v] l IH]; intros k; cbn.
  - rewrite Hs. eauto.
  - destruct (sameTarget (credentials v) c) eqn:E; [done|]. intros Hnone.
    destruct (bool_decide (key' = key)); cbn.
    + rewrite Hs. eauto.
    + rewrite E. auto.
Qed.

Lemma sameTarget_refl c p : port c = Some p -> p <> 0 -> sameTarget c c = true.
Proof.
  intros Hp Hne. unfold sameTarget. rewrite Hp. cbn.
  rewrite !bool_decide_eq_true_2 by done.
  destruct (Z.eqb_spec p 0); [done|]. by rewrite Z.eqb_refl.
Qed.

(** *** Registered sessions are connected *)

Lemma allConnected_new timeout limit : allConnected (new timeout limit).
Proof. constructor. Qed.

Lemma Forall_mapSet (P : jsstring * SSHSession -> Prop) key s l :
  P (key, s) -> Forall P l -> Forall P (mapSet key s l).
Proof.
  intros Hs. induction 1 as [|[k v] l Hv Hl IH]; cbn.
  - by constructor.
  - destruct (bool_decide (k = key)); by constructor.
Qed.

Lemma Forall_mapDelete (P : jsstring * SSHSession -> Prop) key l :
  Forall P l -> Forall P (mapDelete key l).
Proof.
  induction 1 as [|[k v] l Hv Hl IH]; cbn; [constructor|].
  destruct (bool_decide (k = key)); [done | by constructor].
Qed.

Lemma allConnected_openSession mgr c env :
  allConnected mgr -> allConnected (openSession mgr c env).1.1.
Proof.
  intros Hall. unfold openSession. destruct (_ >=? _); [done|].
  destruct (establish c env) as [eff [m|h]]; [done|].
  by apply Forall_mapSet.
Qed.

Lemma allConnected_createSession mgr c env :
  allConnected mgr -> allConnected (createSession mgr c env).1.1.
Proof.
  intros Hall. unfold createSession.
  destruct (findExistingSession mgr c) as [[i s]|];
    [destruct (isConnected s) |]; try by apply allConnected_openSession.
  cbn. unfold allConnected, touch. cbn. by apply Forall_alter.
Qed.

Lemma allConnected_closeSession mgr sessionId :
  allConnected mgr -> allConnected (closeSession mgr sessionId).1.1.
Proof.
  intros Hall. unfold closeSession.
  destruct (mapGet sessionId (sessions mgr)); [|done].
  by apply Forall_mapDelete.
Qed.

Lemma allConnected_getSession mgr sessionId now :
  allConnected mgr -> allConnected (getSession mgr sessionId now).1.
Proof.
  intros Hall. unfold getSession.
  destruct (mapGet sessionId (sessions mgr)) as [s|]; [|done].
  destruct (isConnected s) eqn:E; [|done].
  by apply Forall_mapSet.
Qed.

(** With the port given explicitly (and not 0), a second request for the
    same target returns the identifier of the first and makes no call on
    the transport. *)
Lemma createSession_reuses_explicit_port mgr c p env1 env2 m1 eff1 id1 :
  port c = Some p -> p <> 0 -> allConnected mgr ->
  createSession mgr c env1 = (m1, eff1, inr id1) ->
  exists m2, createSession m1 c env2 = (m2, [], inr id1).
Proof.
  intros Hp Hne Hall. unfold createSession at 1.
  destruct (findExistingSession mgr c) as [[i s]|] eqn:Hf.
  - assert (Hc : isConnected s = true).
    { destruct (findFrom_elem _ _ _ _ _ Hf) as [key Hin].
      unfold allConnected in Hall. rewrite Forall_forall in Hall.
      apply (Hall _ Hin). }
    rewrite Hc. intros [= <- <- <-].
    unfold createSession, findExistingSession, touch. cbn [sessions].
    unfold findExistingSession in Hf.
    pose proof (findFrom_touch 0 _ _ _ _ (env_now env1) Hf) as Hf'.
    rewrite Nat.sub_0_r in Hf'. rewrite Hf'. cbn. rewrite Hc. eauto.
  - unfold openSession. destruct (_ >=? _); [done|].
    destruct (establish c env1) as [eff [m|h]]; [done|].
    intros [= <- <- <-].
    unfold createSession, findExistingSession. cbn [sessions].
    destruct (findFrom_mapSet 0 (sessions mgr) c (env_uuid env1)
                (mkSession (env_uuid env1) c (env_client env1) (Some h) true
                           (env_now env1) (env_now env1) 0) Hf)
      as [i Hi]; [by apply sameTarget_refl with (p := p)|].
    rewrite Hi. cbn. eauto.
Qed.

End Registry.

(** ** Command execution *)

Section Executor.

Import SSHExecutor ExecutorSpec Examples.

(** *** The promise settles once *)

Lemma settle_settled p st :
  promise st <> Pending -> promise (settle p st) = promise st.
Proof. unfold settle. cbn. by destruct (promise st). Qed.

Lemma sudo_step_settled o st ev :
  promise st <> Pending ->
  promise (executeSudoCommand_step o st ev) = promise st.
Proof.
  intros Hp. unfold executeSudoCommand_step, onTimer, onExec, onStreamError, sudoData.
  destruct ev; cbn;
    repeat match goal with
           | |- context [if ?b then _ else _] => destruct b; cbn
           | |- context [match ?x with Some _ => _ | None => _ end] => destruct x; cbn
           end;
    try reflexivity; by destruct (promise st).
Qed.

Lemma sudo_run_settled o evs st :
  promise st <> Pending ->
  promise (fold_left (executeSudoCommand_step o) evs st) = promise st.
Proof.
  revert st. induction evs as [|ev evs IH]; intros st Hp; [reflexivity|].
  cbn. rewrite IH; rewrite sudo_step_settled; auto.
Qed.

(** *** The chunks of an open stream *)

Lemma sudo_data_step o pw st text :
  sudoPassword o = Some pw -> truthy pw = true -> streamOpen st = true ->
  executeSudoCommand_step o st (StreamData text) =
  if negb (passwordSent st) && looksLikePrompt text
  then markPasswordSent (write (pw ++ newline) st)
  else appendOut text st.
Proof.
  intros Hpw Htruthy Hopen. unfold executeSudoCommand_step. rewrite Hopen.
  unfold sudoData. rewrite Hpw. cbn [truthyOpt]. rewrite Htruthy, andb_true_r.
  reflexivity.
Qed.

Lemma sudo_chunks o pw chunks st :
  sudoPassword o = Some pw -> truthy pw = true -> streamOpen st = true ->
  let st' := fold_left (executeSudoCommand_step o) (chunkEvent <$> chunks) st in
  out st' = out st ++ keptOut (passwordSent st) chunks
  /\ err st' = err st ++ errText chunks
  /\ promise st' = promise st
  /\ streamOpen st' = true
  /\ session st' = session st.
Proof.
  intros Hpw Htruthy. revert st.
  induction chunks as [|[text|text] chunks IH]; intros st Hopen.
  - cbn. by rewrite !app_nil_r.
  - cbn [fmap list_fmap chunkEvent fold_left keptOut errText]. cbn zeta.
    rewrite (sudo_data_step o pw) by assumption.
    destruct (negb (passwordSent st) && looksLikePrompt text) eqn:E.
    + destruct (IH (markPasswordSent (write (pw ++ newline) st)) Hopen)
        as (H1 & H2 & H3 & H4 & H5).
      cbn in H1, H2, H3, H5. auto.
    + destruct (IH (appendOut text st) Hopen) as (H1 & H2 & H3 & H4 & H5).
      cbn in H1, H2, H3, H5. rewrite <- app_assoc in H1. auto.
  - cbn [fmap list_fmap chunkEvent fold_left keptOut errText]. cbn zeta.
    replace (executeSudoCommand_step o st (StderrData text))
      with (appendErr text st)
      by (unfold executeSudoCommand_step; by rewrite Hopen).
    destruct (IH (appendErr text st) Hopen) as (H1 & H2 & H3 & H4 & H5).
    cbn in H1, H2, H3, H5. rewrite <- app_assoc in H2. auto.
Qed.

Lemma sudo_exchange_result s command o pw chunks c sg now later :
  sudoPassword o = Some pw -> truthy pw = true ->
  promise (executeSudoCommand s command o (exchange chunks c sg now later)) =
  Resolved (mkCommandResult (trim (keptOut false chunks))
                            (trim (strippedErr chunks)) c sg).
Proof.
  intros Hpw Htruthy. unfold executeSudoCommand, exchange.
  cbn [fold_left]. rewrite fold_left_app. cbn [fold_left].
  set (st0 := start s _ _).
  change (executeSudoCommand_step o st0 (ExecCallback None)) with (openStream st0).
  destruct (sudo_chunks o pw chunks (openStream st0) Hpw Htruthy eq_refl)
    as (H1 & H2 & H3 & H4 & H5).
  cbn in H1, H2, H3.
  set (st := fold_left (executeSudoCommand_step o) (chunkEvent <$> chunks)
               (openStream st0)) in *.
  rewrite sudo_run_settled.
  - unfold executeSudoCommand_step. rewrite H4. unfold settle, recordClose, clearTimeout.
    cbn. rewrite H3, H1, H2. reflexivity.
  - unfold executeSudoCommand_step. rewrite H4. unfold settle, recordClose, clearTimeout.
    cbn. rewrite H3. discriminate.
Qed.

(** The result of an exchange is the same for any two passwords: none of
    its fields is computed from the password. *)
Lemma sudo_result_independent_of_password s command o1 o2 pw1 pw2 chunks c sg
    now later :
  sudoPassword o1 = Some pw1 -> truthy pw1 = true ->
  sudoPassword o2 = Some pw2 -> truthy pw2 = true ->
  promise (executeSudoCommand s command o1 (exchange chunks c sg now later)) =
  promise (executeSudoCommand s command o2 (exchange chunks c sg now later)).
Proof.
  intros H1 T1 H2 T2.
  rewrite (sudo_exchange_result _ _ _ pw1) by assumption.
  rewrite (sudo_exchange_result _ _ _ pw2) by assumption.
  reflexivity.
Qed.

(** C3, as amended.  With a password supplied, whatever chunks the stream
    delivers before it closes: when the password occurs neither in the
    standard-output text of the chunks (the first prompt-like chunk left
    out) nor in the standard-error text with the prompt patterns taken out,
    the call resolves and the password occurs neither in the [stdout] nor in
    the [stderr] of its result. *)
Theorem sudo_password_not_copied (s : SSHSession) (command : jsstring)
    (o : CommandOptions) (pw : jsstring) (chunks : list Chunk)
    (c : option Z) (sg : option jsstring) (now : Z) (later : list Event) :
  sudoPassword o = Some pw -> truthy pw = true ->
  includes (keptOut false chunks) pw = false ->
  includes (strippedErr chunks) pw = false ->
  exists r,
    promise (executeSudoCommand s command o (exchange chunks c sg now later)) = Resolved r
    /\ includes (stdout r) pw = false
    /\ includes (stderr r) pw = false.
Proof.
  intros Hpw Htruthy Hout Herr. eexists. split.
  - by apply sudo_exchange_result with (pw := pw).
  - cbn. split; by apply not_includes_trim.
Qed.

Lemma sudo_password_not_copied_witness :
  exists r,
    promise (executeSudoCommand aSession (js "id") (withPassword (js "hunter2"))
               (exchange [OutChunk (js "[sudo] password for alice: ");
                          OutChunk (js "uid=0(root)");
                          ErrChunk (js "Password:")] (Some 0) None 2000 [])) = Resolved r
    /\ includes (stdout r) (js "hunter2") = false
    /\ includes (stderr r) (js "hunter2") = false.
Proof.
  apply (sudo_password_not_copied aSession (js "id") (withPassword (js "hunter2"))
           (js "hunter2")); vm_compute; reflexivity.
Defined.

(** The condition on standard error has to be put on the stripped text:
    taking a prompt pattern out can join what stood on its two sides. *)
Lemma stripping_joins_text :
  includes (js "hunPassword:ter2") (js "hunter2") = false
  /\ cleanStderr (js "hunPassword:ter2") = js "hunter2".
Proof. split; vm_compute; reflexivity. Qed.

(** C3 as stated does not hold: the terminal echoes the password the
    handler has just written, and the echo is captured. *)
Lemma sudo_password_echoed :
  ~ (forall s command o pw chunks c sg now later r,
       sudoPassword o = Some pw -> truthy pw = true ->
       promise (executeSudoCommand s command o (exchange chunks c sg now later)) = Resolved r ->
       includes (stdout r) pw = false /\ includes (stderr r) pw = false).
Proof.
  intros claim.
  assert (Hrun :
    promise (executeSudoCommand aSession (js "id") (withPassword (js "hunter2"))
               (exchange [OutChunk (js "[sudo] password for alice: ");
                          OutChunk (js "hunter2");
                          OutChunk (js "uid=0(root)")] (Some 0) None 2000 []))
    = Resolved (mkCommandResult (js "hunter2uid=0(root)") [] (Some 0) None))
    by (vm_compute; reflexivity).
  destruct (claim _ _ (withPassword (js "hunter2")) (js "hunter2") _ _ _ _ _ _
              eq_refl eq_refl Hrun)
    as [Hout _].
  vm_compute in Hout. discriminate.
Qed.

(** C4, as amended.  With a password supplied and not yet sent, a chunk of
    standard output that contains [password] or [Password] makes the handler
    write the password and a newline to the stream and is left out of the
    captured output; every other chunk is appended to it and nothing is
    written. *)
Theorem sudo_prompt_detection (o : CommandOptions) (pw : jsstring) (st : Run)
    (text : jsstring) :
  sudoPassword o = Some pw -> truthy pw = true ->
  streamOpen st = true -> passwordSent st = false ->
  let st' := executeSudoCommand_step o st (StreamData text) in
  (includes text (js "password") = true \/ includes text (js "Password") = true ->
   written st' = written st ++ [pw ++ newline] /\ out st' = out st
   /\ passwordSent st' = true)
  /\ (includes text (js "password") = false /\ includes text (js "Password") = false ->
      written st' = written st /\ out st' = out st ++ text
      /\ passwordSent st' = false).
Proof.
  intros Hpw Htruthy Hopen Hsent. cbn zeta.
  rewrite (sudo_data_step o pw) by assumption.
  rewrite Hsent. cbn [negb andb]. unfold looksLikePrompt. split.
  - intros Hp. apply orb_true_iff in Hp. rewrite Hp. by cbn.
  - intros [H1 H2]. rewrite H1, H2. by cbn.
Qed.

Lemma sudo_prompt_detection_witness :
  let st := openStream (start aSession (js "id") true) in
  let st' := executeSudoCommand_step (withPassword (js "hunter2")) st
               (StreamData (js "Password:")) in
  written st' = [js "hunter2" ++ newline] /\ out st' = [] /\ passwordSent st' = true.
Proof.
  cbn zeta.
  apply (proj1 (sudo_prompt_detection (withPassword (js "hunter2")) (js "hunter2")
                 (openStream (start aSession (js "id") true)) (js "Password:")
                 eq_refl eq_refl eq_refl eq_refl)).
  right. vm_compute. reflexivity.
Defined.

(** C4 as stated does not hold: only the two spellings are looked for. *)
Lemma uppercase_prompt_not_answered :
  ~ (forall o pw st text,
       sudoPassword o = Some pw -> truthy pw = true ->
       streamOpen st = true -> passwordSent st = false ->
       let st' := executeSudoCommand_step o st (StreamData text) in
       if includesIgnoringCase text (js "password")
       then written st' = written st ++ [pw ++ newline] /\ out st' = out st
       else written st' = written st /\ out st' = out st ++ text).
Proof.
  intros claim.
  specialize (claim (withPassword (js "hunter2")) (js "hunter2")
                (openStream (start aSession (js "id") true)) (js "PASSWORD:")
                eq_refl eq_refl eq_refl eq_refl).
  vm_compute in claim. destruct claim as [Hw _]. discriminate.
Qed.

End Executor.

(** ** Counters of a session *)

Section Counters.

Import SSHExecutor Examples.

(** Case analysis on one delivery: every test the handlers make. *)
Ltac handler_cases :=
  repeat match goal with
         | |- context [if ?b then _ else _] => destruct b eqn:?; cbn
         | |- context [match ?x with Some _ => _ | None => _ end] =>
             destruct x eqn:?; cbn
         | |- context [match promise ?st with _ => _ end] =>
             destruct (promise st) eqn:?; cbn
         end.

Lemma executeCommand_step_pending o st ev :
  promise (executeCommand_step o st ev) = Pending ->
  promise st = Pending /\ session (executeCommand_step o st ev) = session st.
Proof.
  unfold executeCommand_step, onTimer, onExec, onStreamError.
  destruct ev; cbn; handler_cases; intros; try discriminate; auto; congruence.
Qed.

Lemma executeCommand_step_rejects o st ev m :
  promise st = Pending ->
  promise (executeCommand_step o st ev) = Rejected m ->
  session (executeCommand_step o st ev) = session st.
Proof.
  unfold executeCommand_step, onTimer, onExec, onStreamError.
  intros Hp. destruct ev; cbn; rewrite ?Hp; handler_cases; intros;
    try discriminate; auto; congruence.
Qed.

Lemma executeCommand_pending s command o evs :
  promise (executeCommand s command o evs) = Pending ->
  session (executeCommand s command o evs) = s.
Proof.
  unfold executeCommand. induction evs as [|ev evs IH] using rev_ind.
  - reflexivity.
  - rewrite fold_left_app. cbn [fold_left]. intros Hp.
    apply executeCommand_step_pending in Hp as [Hp Hs].
    rewrite Hs. auto.
Qed.

Lemma executeWithInput_step_pending input o st ev :
  promise (executeWithInput_step input o st ev) = Pending ->
  promise st = Pending /\ session (executeWithInput_step input o st ev) = session st.
Proof.
  unfold executeWithInput_step, onTimer, onExec, onStreamError.
  destruct ev; cbn; handler_cases; intros; try discriminate; auto; congruence.
Qed.

Lemma executeWithInput_step_rejects input o st ev m :
  promise st = Pending ->
  promise (executeWithInput_step input o st ev) = Rejected m ->
  session (executeWithInput_step input o st ev) = session st.
Proof.
  unfold executeWithInput_step, onTimer, onExec, onStreamError.
  intros Hp. destruct ev; cbn; rewrite ?Hp; handler_cases; intros;
    try discriminate; auto; congruence.
Qed.

Lemma executeWithInput_pending s command input o evs :
  promise (executeWithInput s command input o evs) = Pending ->
  session (executeWithInput s command input o evs) = s.
Proof.
  unfold executeWithInput. induction evs as [|ev evs IH] using rev_ind.
  - reflexivity.
  - rewrite fold_left_app. cbn [fold_left]. intros Hp.
    apply executeWithInput_step_pending in Hp as [Hp Hs].
    rewrite Hs. auto.
Qed.

(** C10, as amended.  When an event rejects the promise of
    [executeCommand] or [executeWithInput] (the timer, an error of [exec] or
    of the stream), the session is at that moment exactly as it was before
    the call.  The close handler counts the command and refreshes the
    activity stamp whenever it runs on the open stream, also after the
    promise was rejected. *)
Theorem failure_leaves_counters_until_close (s : SSHSession)
    (command input : jsstring) (o : CommandOptions) (evs : list Event)
    (ev : Event) (m : jsstring) :
  (promise (executeCommand s command o evs) = Pending ->
   promise (executeCommand s command o (evs ++ [ev])) = Rejected m ->
   session (executeCommand s command o (evs ++ [ev])) = s)
  /\ (promise (executeWithInput s command input o evs) = Pending ->
      promise (executeWithInput s command input o (evs ++ [ev])) = Rejected m ->
      session (executeWithInput s command input o (evs ++ [ev])) = s)
  /\ (forall st c sg now, streamOpen st = true ->
        session (executeCommand_step o st (StreamClose c sg now)) =
          set_lastActivity now (incr_commandCount (session st))
        /\ session (executeWithInput_step input o st (StreamClose c sg now)) =
          set_lastActivity now (incr_commandCount (session st))).
Proof.
  split; [|split].
  - intros Hp Hr. pose proof (executeCommand_pending _ _ _ _ Hp) as Hs.
    unfold executeCommand in *. rewrite fold_left_app in *. cbn [fold_left] in *.
    rewrite (executeCommand_step_rejects _ _ _ _ Hp Hr). exact Hs.
  - intros Hp Hr. pose proof (executeWithInput_pending _ _ _ _ _ Hp) as Hs.
    unfold executeWithInput in *. rewrite fold_left_app in *. cbn [fold_left] in *.
    rewrite (executeWithInput_step_rejects _ _ _ _ _ Hp Hr). exact Hs.
  - intros st c sg now Hopen.
    unfold executeCommand_step, executeWithInput_step. rewrite Hopen.
    split; reflexivity.
Qed.

Lemma failure_leaves_counters_until_close_witness :
  session (executeCommand aSession (js "sleep 60") noOptions
             ([ExecCallback None; StreamData (js "x")] ++ [TimerFired])) = aSession.
Proof.
  apply (proj1 (failure_leaves_counters_until_close aSession (js "sleep 60") []
                  noOptions [ExecCallback None; StreamData (js "x")] TimerFired
                  (timeoutMessage noOptions))); vm_compute; reflexivity.
Defined.

(** C10 as stated does not hold: the stream closes after the timer has
    rejected the call, and the close handler still counts the command. *)
Lemma close_after_timeout_counts :
  ~ (forall s command o evs m,
       promise (executeCommand s command o evs) = Rejected m ->
       commandCount (session (executeCommand s command o evs)) = commandCount s
       /\ lastActivity (session (executeCommand s command o evs)) = lastActivity s).
Proof.
  intros claim.
  destruct (claim aSession (js "sleep 60") noOptions
              [ExecCallback None; TimerFired; StreamClose (Some 0) None 99000]
              (timeoutMessage noOptions) eq_refl) as [Hc _].
  vm_compute in Hc. discriminate.
Qed.

End Counters.

(** ** Recursive directory creation *)

Section Mkdir.

Import SFTPOperations MkdirSpec.

Context {W : Type} `{Env W}.

Local Open Scope async_scope.

(** *** The session handle is never replaced *)

Lemma keepsHandle_ret {A} (a : A) : keepsHandle W (ret a).
Proof. by intros st. Qed.

Lemma keepsHandle_throw {A} e : keepsHandle W (@throw W A e).
Proof. by intros st. Qed.

Lemma keepsHandle_bind {A B} (m : M W A) (k : A -> M W B) :
  keepsHandle W m -> (forall a, keepsHandle W (k a)) -> keepsHandle W (bind m k).
Proof.
  intros Hm Hk st. unfold bind. specialize (Hm st).
  destruct (m st) as [st' [a|e|]]; cbn in *; [|done|done].
  by rewrite Hk.
Qed.

Lemma keepsHandle_tryCatch {A} (m : M W A) (h : jsstring -> M W A) :
  keepsHandle W m -> (forall e, keepsHandle W (h e)) -> keepsHandle W (tryCatch m h).
Proof.
  intros Hm Hh st. unfold tryCatch. specialize (Hm st).
  destruct (m st) as [st' [a|e|]]; cbn in *; [done| |done].
  by rewrite Hh.
Qed.

Lemma keepsHandle_query {A} (f : W -> jsstring + A) wrap : keepsHandle W (query f wrap).
Proof. intros st. unfold query. by destruct (f (world st)). Qed.

Lemma keepsHandle_command f wrap : keepsHandle W (command f wrap).
Proof. intros st. unfold command. by destruct (f (world st)) as [w [e|]]. Qed.

Lemma keepsHandle_touch : keepsHandle W touch.
Proof. by intros st. Qed.

Lemma keepsHandle_getSFTP : keepsHandle W getSFTP.
Proof. intros st. unfold getSFTP. by destruct (sftp (session st)) eqn:E. Qed.

Lemma keepsHandle_stat p : keepsHandle W (stat p).
Proof.
  unfold stat. repeat (apply keepsHandle_bind; intros);
    auto using keepsHandle_getSFTP, keepsHandle_query, keepsHandle_touch, keepsHandle_ret.
Qed.

Lemma keepsHandle_mkdirLoop mode parts cur : keepsHandle W (mkdirLoop mode parts cur).
Proof.
  revert cur. induction parts as [|part parts IH]; intros cur; cbn.
  - apply keepsHandle_ret.
  - apply keepsHandle_bind; [|auto].
    apply keepsHandle_tryCatch; [|intros; apply keepsHandle_command].
    apply keepsHandle_bind; [apply keepsHandle_stat | intros; apply keepsHandle_ret].
Qed.

Lemma keepsHandle_mkdir p recursive mode : keepsHandle W (mkdir p recursive mode).
Proof.
  unfold mkdir, mkdirRecursive.
  apply keepsHandle_bind; [apply keepsHandle_getSFTP | intros _].
  destruct (default false recursive).
  - repeat (apply keepsHandle_bind; intros);
      auto using keepsHandle_getSFTP, keepsHandle_mkdirLoop, keepsHandle_touch.
  - repeat (apply keepsHandle_bind; intros);
      auto using keepsHandle_command, keepsHandle_touch.
Qed.

(** *** Existing prefixes are only looked at *)

Lemma stat_existing p st h :
  sftp (session st) = Some h -> statSucceeds (world st) p = true ->
  exists info,
    stat p st =
      (mkState (world st) (set_lastActivity (Date_now (world st)) (session st)),
       Ok info).
Proof.
  unfold statSucceeds, stat, bind, getSFTP, query, touch, ret.
  intros -> Hs. cbn. destruct (sftp_stat p (world st)); [discriminate|]. cbn. eauto.
Qed.

Lemma mkdirLoop_existing mode parts cur st h :
  sftp (session st) = Some h ->
  forallb (statSucceeds (world st)) (prefixesFrom cur parts) = true ->
  exists st', mkdirLoop mode parts cur st = (st', Ok tt)
              /\ world st' = world st /\ sftp (session st') = Some h.
Proof.
  revert cur st. induction parts as [|part parts IH]; intros cur st Hh Hall.
  - exists st. by cbn.
  - cbn in Hall. apply andb_true_iff in Hall as [Hhere Hrest].
    destruct (stat_existing _ _ _ Hh Hhere) as [info Hstat].
    cbn [mkdirLoop]. unfold bind at 1. unfold tryCatch, bind at 1.
    rewrite Hstat. cbn [ret].
    destruct (IH (nextPath cur part)
                (mkState (world st)
                   (set_lastActivity (Date_now (world st)) (session st))) Hh Hrest)
      as (st' & Hloop & Hw & Hh').
    exists st'. auto.
Qed.

(** C8.  When [mkdir(path, {recursive: true})] has succeeded and every
    cumulative prefix of the path exists in the state it left, a second call
    succeeds too and changes nothing on the remote side. *)
Theorem mkdir_recursive_twice (st st1 : State W) (remotePath : jsstring)
    (mode : option Z) :
  mkdir remotePath (Some true) mode st = (st1, Ok tt) ->
  allPrefixesExist (world st1) remotePath = true ->
  exists st2, mkdir remotePath (Some true) mode st1 = (st2, Ok tt)
              /\ world st2 = world st1.
Proof.
  intros Hfirst Hall.
  assert (Hh : exists h, sftp (session st1) = Some h).
  { pose proof (keepsHandle_mkdir remotePath (Some true) mode st) as Hk.
    rewrite Hfirst in Hk. cbn in Hk. rewrite Hk.
    revert Hfirst. unfold mkdir, bind at 1, getSFTP.
    destruct (sftp (session st)); [eauto | discriminate]. }
  destruct Hh as [h Hh].
  destruct (mkdirLoop_existing (default 493 mode) (pathParts remotePath)
              (startPath remotePath) st1 h Hh Hall) as (st' & Hloop & Hw & Hh').
  exists (mkState (world st') (set_lastActivity (Date_now (world st')) (session st'))).
  split; [|exact Hw].
  unfold mkdir, mkdirRecursive, bind, getSFTP. rewrite Hh. cbn.
  rewrite Hh, Hloop. reflexivity.
Qed.

End Mkdir.

Section MkdirWitness.
Import SFTPOperations MkdirSpec TreeWorld Examples.

Lemma mkdir_recursive_twice_witness :
  exists st2,
    mkdir (js "/srv/www/html") (Some true) None
      (mkdir (js "/srv/www/html") (Some true) None aState).1 = (st2, Ok tt)
    /\ world st2 = world (mkdir (js "/srv/www/html") (Some true) None aState).1.
Proof.
  apply (mkdir_recursive_twice aState _ (js "/srv/www/html") None);
    vm_compute; reflexivity.
Defined.

End MkdirWitness.

(** ** Directory transfers *)

Section Transfers.

Import SFTPOperations TransferSpec.
Context {W : Type} `{Env W}.

Lemma forOfResult_invariant {A} (P : TransferResult -> Prop) (l : list A)
    (body : A -> TransferResult -> M W TransferResult) :
  (forall x r st st' r', P r -> body x r st = (st', Ok r') -> P r') ->
  forall r st st' r', P r -> forOfResult l body r st = (st', Ok r') -> P r'.
Proof.
  intros Hbody. induction l as [|x l IH]; intros r st st' r' HP Hrun.
  - cbn in Hrun. unfold ret in Hrun. congruence.
  - cbn in Hrun. unfold bind in Hrun.
    destruct (body x r st) as [st1 [r1|e|]] eqn:Hx; try discriminate.
    eapply IH; [|exact Hrun]. eapply Hbody; eauto.
Qed.

Lemma flagCovers_merge sub r : flagCovers r -> flagCovers (mergeResult sub r).
Proof.
  unfold flagCovers, mergeResult. cbn. intros Hr Hnil.
  apply app_eq_nil in Hnil as [Hnil _]. auto.
Qed.

Lemma flagCovers_push p r : flagCovers r -> flagCovers (pushTransferred p r).
Proof. unfold flagCovers. cbn. auto. Qed.

Lemma flagCovers_failure p m r : flagCovers (recordFailure p m r).
Proof. unfold flagCovers. cbn. intros Hnil. by destruct (failed r). Qed.

(** A transfer whose [failed] list is empty reports success. *)
Lemma uploadDirectory_flagCovers fuel localPath remotePath options st st' r :
  uploadDirectory fuel localPath remotePath options st = (st', Ok r) ->
  flagCovers r.
Proof.
  destruct fuel as [|fuel]; [discriminate|]. cbn [uploadDirectory].
  unfold bind at 1. destruct (mkdir _ _ _ st) as [st1 [[]|e|]]; try discriminate.
  unfold bind at 1. destruct (query _ _ st1) as [st2 [es|e|]]; try discriminate.
  apply forOfResult_invariant; [|by unfold flagCovers].
  intros x r0 s0 s1 r1 Hr0. unfold tryCatch, bind, ret.
  destruct (de_isDirectory x).
  - destruct (uploadDirectory fuel _ _ _ s0) as [s2 [sub|e|]]; intros [= <- <-];
      auto using flagCovers_merge, flagCovers_failure.
  - destruct (uploadFile _ _ _ s0) as [s2 [[]|e|]]; intros [= <- <-];
      auto using flagCovers_push, flagCovers_failure.
Qed.

Lemma downloadDirectory_flagCovers fuel remotePath localPath options st st' r :
  downloadDirectory fuel remotePath localPath options st = (st', Ok r) ->
  flagCovers r.
Proof.
  destruct fuel as [|fuel]; [discriminate|]. cbn [downloadDirectory].
  unfold bind at 1. destruct (existsSync _ st) as [st1 [present|e|]]; try discriminate.
  unfold bind at 1.
  match goal with
  | |- context [match ?m st1 with _ => _ end] =>
      destruct (m st1) as [st2 [[]|e|]]; try discriminate
  end.
  unfold bind at 1. destruct (listDirectory _ st2) as [st3 [listing|e|]]; try discriminate.
  apply forOfResult_invariant; [|by unfold flagCovers].
  intros x r0 s0 s1 r1 Hr0. unfold tryCatch, bind, ret.
  destruct (isDirectory x).
  - destruct (downloadDirectory fuel _ _ _ s0) as [s2 [sub|e|]]; intros [= <- <-];
      auto using flagCovers_merge, flagCovers_failure.
  - destruct (downloadFile _ _ _ s0) as [s2 [[]|e|]]; intros [= <- <-];
      auto using flagCovers_push, flagCovers_failure.
Qed.

End Transfers.

Section TransferExamples.

Import SFTPOperations TreeWorld Examples.

(** C2, at inputs where the code departs from it: a download and an
    upload in which the one failing file lies in a subdirectory.  The child
    result lists the file as failed, the parent takes over the list, and the
    parent's flag stays [true]. *)
Theorem nested_failure_keeps_success_flag :
  (exists st r,
      downloadDirectory 5 (js "/data") (js "/dl") None
        (mkState downloadWorld aSession) = (st, Ok r)
      /\ failed r = [js "/dl/sub/f.txt"]
      /\ success r = true)
  /\ (exists st r,
        uploadDirectory 5 (js "/site") (js "/srv") None
          (mkState uploadWorld aSession) = (st, Ok r)
        /\ failed r = [js "/srv/img/logo.png"]
        /\ success r = true).
Proof.
  split; do 2 eexists; (split; [vm_compute; reflexivity|]);
    split; vm_compute; reflexivity.
Qed.

(** C6, at an input where the code departs from it: an upload in which
    exactly one leaf, inside a subdirectory, fails.  The other leaves are
    transferred and the failing one is listed with its message, as the claim
    says, but the flag of the result is [true]. *)
Theorem single_nested_leaf_failure :
  exists st r,
    uploadDirectory 5 (js "/site") (js "/srv") None
      (mkState uploadWorld aSession) = (st, Ok r)
    /\ transferred r = [js "/srv/index.html"; js "/srv/img/icon.png"]
    /\ failed r = [js "/srv/img/logo.png"]
    /\ errors r !! js "/srv/img/logo.png" =
         Some (js "Remote file already exists: /srv/img/logo.png")
    /\ success r = true.
Proof.
  do 2 eexists. split; [vm_compute; reflexivity|].
  repeat split; vm_compute; reflexivity.
Qed.

End TransferExamples.

(** ** Removal *)

Section Paths.

Import TreeWorld.

Lemma split_nonempty sep s : split sep s <> [].
Proof.
  destruct s as [|c s]; cbn; [discriminate|].
  destruct (c =? sep)%N; [discriminate|]. by destruct (split sep s).
Qed.

Lemma split_app sep (a b : jsstring) :
  split sep (a ++ sep :: b) = split sep a ++ split sep b.
Proof.
  induction a as [|c a IH]; cbn.
  - by rewrite N.eqb_refl.
  - destruct (c =? sep)%N; [by rewrite IH|].
    rewrite IH. pose proof (split_nonempty sep a) as Hne.
    by destruct (split sep a).
Qed.

Lemma split_one sep (x : jsstring) :
  forallb (fun c => negb (c =? sep)%N) x = true -> split sep x = [x].
Proof.
  induction x as [|c x IH]; cbn; [done|].
  intros [Hc Hx]%andb_true_iff. apply negb_true_iff in Hc. rewrite Hc.
  by rewrite IH.
Qed.

Lemma resolve_entry (p x : jsstring) :
  validName x = true -> resolve (p ++ js "/" ++ x) = resolve p ++ [x].
Proof.
  unfold validName, resolve. intros [Hne Hx]%andb_true_iff.
  change (js "/" ++ x) with (47%N :: x).
  rewrite split_app, filter_app, (split_one _ _ Hx).
  f_equal. rewrite filter_cons_True by exact Hne. reflexivity.
Qed.

Lemma unsnoc_snoc (d : list jsstring) (x : jsstring) :
  unsnoc (d ++ [x]) = Some (d, x).
Proof.
  induction d as [|y d IH]; [reflexivity|].
  cbn [app unsnoc]. rewrite IH. by destruct d.
Qed.

End Paths.

Section Trees.

Import TreeWorld RemoveSpec.

Lemma assoc_setKey x v cs : assoc x (setKey x v cs) = Some v.
Proof.
  induction cs as [|[k w] cs IH]; cbn.
  - by rewrite bool_decide_eq_true_2.
  - destruct (bool_decide (k = x)) eqn:E; cbn.
    + by rewrite bool_decide_eq_true_2.
    + by rewrite E.
Qed.

Lemma setKey_setKey x v w cs : setKey x w (setKey x v cs) = setKey x w cs.
Proof.
  induction cs as [|[k u] cs IH]; cbn.
  - by rewrite bool_decide_eq_true_2.
  - destruct (bool_decide (k = x)) eqn:E; cbn.
    + by rewrite bool_decide_eq_true_2.
    + by rewrite E, IH.
Qed.

Lemma removeKey_setKey x v cs :
  is_Some (assoc x cs) -> removeKey x (setKey x v cs) = removeKey x cs.
Proof.
  induction cs as [|[k u] cs IH]; cbn.
  - by intros [? ?].
  - destruct (bool_decide (k = x)) eqn:E; cbn.
    + by rewrite bool_decide_eq_true_2.
    + intros Hs. by rewrite E, IH.
Qed.

Lemma assoc_removeKey x cs : NoDup cs.*1 -> assoc x (removeKey x cs) = None.
Proof.
  induction cs as [|[k u] cs IH]; cbn; [done|].
  intros [Hk Hnd]%NoDup_cons.
  destruct (bool_decide (k = x)) eqn:E; cbn.
  - apply bool_decide_eq_true in E as ->.
    clear IH Hnd. induction cs as [|[k' u'] cs IH]; cbn; [done|].
    cbn in Hk. apply not_elem_of_cons in Hk as [Hne Hk].
    rewrite bool_decide_eq_false_2 by congruence. auto.
  - rewrite E. auto.
Qed.

Lemma nodeAt_app a b root :
  nodeAt (a ++ b) root = nodeAt a root ≫= nodeAt b.
Proof.
  revert root. induction a as [|x a IH]; intros root; cbn; [done|].
  destruct root as [|cs]; [done..|].
  destruct (assoc x cs); [apply IH | done].
Qed.

Lemma nodeAt_setAt q n root :
  is_Some (nodeAt q root) -> nodeAt q (setAt q n root) = Some n.
Proof.
  revert root. induction q as [|x q IH]; intros root; cbn; [done|].
  destruct root as [|cs]; [by intros [? ?]..|].
  destruct (assoc x cs) as [c|] eqn:E; [|by intros [? ?]].
  intros Hs. cbn. rewrite assoc_setKey. auto.
Qed.

Lemma setAt_setAt q n m root :
  is_Some (nodeAt q root) -> setAt q m (setAt q n root) = setAt q m root.
Proof.
  revert root. induction q as [|x q IH]; intros root; cbn; [done|].
  destruct root as [|cs]; [by intros [? ?]..|].
  destruct (assoc x cs) as [c|] eqn:E; [|by intros [? ?]].
  intros Hs. cbn. rewrite assoc_setKey, setKey_setKey, IH by done. done.
Qed.

Lemma setKey_same x c cs : assoc x cs = Some c -> setKey x c cs = cs.
Proof.
  induction cs as [|[k u] cs IH]; cbn; [done|].
  destruct (bool_decide (k = x)) eqn:E.
  - apply bool_decide_eq_true in E. congruence.
  - intros Ha. by rewrite IH.
Qed.

Lemma setAt_same q n root : nodeAt q root = Some n -> setAt q n root = root.
Proof.
  revert root. induction q as [|x q IH]; intros root; cbn; [congruence|].
  destruct root as [|cs]; [done..|].
  destruct (assoc x cs) as [c|] eqn:E; [|done].
  intros Hl. by rewrite (IH c Hl), setKey_same.
Qed.

Lemma setAt_snoc d x n cs m root :
  nodeAt d root = Some (Dir cs) -> assoc x cs = Some m ->
  setAt (d ++ [x]) n root = setAt d (Dir (setKey x n cs)) root.
Proof.
  revert root. induction d as [|y d IH]; intros root; cbn.
  - intros [= ->] ->. done.
  - destruct root as [|cs0]; [done..|].
    destruct (assoc y cs0) as [c|] eqn:E; [|done].
    intros Hl Ha. by rewrite (IH c Hl Ha).
Qed.

Lemma alterDir_setAt f d cs cs' root :
  nodeAt d root = Some (Dir cs) -> f cs = Some cs' ->
  alterDir f d root = Some (setAt d (Dir cs') root).
Proof.
  revert root. induction d as [|y d IH]; intros root; cbn.
  - intros [= ->] Hf. cbn. by rewrite Hf.
  - destruct root as [|cs0]; [done..|].
    destruct (assoc y cs0) as [c|] eqn:E; [|done].
    intros Hl Hf. by rewrite (IH c Hl Hf).
Qed.

Lemma alterEntry_setAt f d x cs cs' root :
  nodeAt d root = Some (Dir cs) -> f x cs = Some cs' ->
  alterEntry f (d ++ [x]) root = Some (setAt d (Dir cs') root).
Proof.
  intros Hl Hf. unfold alterEntry. rewrite unsnoc_snoc.
  by apply alterDir_setAt with (cs := cs).
Qed.

End Trees.

Section Removal.

Import SFTPOperations TreeWorld RemoveSpec.

Lemma reaches_trans st st1 st2 r1 r2 c1 c2 :
  reaches st st1 r1 c1 -> reaches st1 st2 r2 c2 -> reaches st st2 r2 (c1 ++ c2).
Proof.
  intros (H1 & H2 & H3 & H4 & H5) (K1 & K2 & K3 & K4 & K5).
  repeat split; try congruence. rewrite K2, H2. by rewrite app_assoc.
Qed.

Lemma entryInfo_isDirectory kv : isDirectory (entryInfo kv) = isDir kv.2.
Proof. by destruct kv as [x [|cs]]. Qed.

Lemma unlink_run p st h r :
  sftp (session st) = Some h ->
  alterEntry unlinkEntry (resolve p) (remote (world st)) = Some r ->
  exists st', unlink p st = (st', Ok tt) /\ reaches st st' r [Unlink p].
Proof.
  intros Hh Hr. unfold unlink, bind, getSFTP, command, touch. rewrite Hh.
  cbn. unfold onRemote. cbn. rewrite Hr. cbn.
  eexists. split; [reflexivity|]. by repeat split.
Qed.

Lemma rmdir_run p st h r :
  sftp (session st) = Some h ->
  alterEntry rmdirEntry (resolve p) (remote (world st)) = Some r ->
  exists st', rmdir p st = (st', Ok tt) /\ reaches st st' r [Rmdir p].
Proof.
  intros Hh Hr. unfold rmdir, bind, getSFTP, command, touch. rewrite Hh.
  cbn. unfold onRemote. cbn. rewrite Hr. cbn.
  eexists. split; [reflexivity|]. by repeat split.
Qed.

Lemma listDirectory_run p st h cs :
  sftp (session st) = Some h ->
  nodeAt (resolve p) (remote (world st)) = Some (Dir cs) ->
  exists st',
    listDirectory p st =
      (st', Ok (mkListing p (entryInfo <$> cs) (length (entryInfo <$> cs))))
    /\ reaches st st' (remote (world st)) [].
Proof.
  intros Hh Hl. unfold listDirectory, bind, getSFTP, query, touch, ret.
  rewrite Hh. cbn. unfold serveReaddir. rewrite Hl. cbn.
  rewrite <- list_fmap_compose.
  eexists. split; [reflexivity|]. repeat split. cbn. by rewrite app_nil_r.
Qed.

Lemma removable_children fuel cs :
  wf (Dir cs) = true -> (depth (Dir cs) <= S fuel)%nat ->
  Forall (removable fuel) cs.
Proof.
  cbn [wf depth]. intros [_ Hwf]%andb_true_iff Hd. apply Nat.succ_le_mono in Hd.
  induction cs as [|[x c] cs IH]; [constructor|].
  cbn in Hwf, Hd. apply andb_true_iff in Hwf as [[Hx Hc]%andb_true_iff Hwf].
  constructor; [|apply IH; [done | lia]].
  repeat split; [done | done | cbn; lia].
Qed.

Lemma removeRecursive_unfold fuel p :
  removeRecursive (S fuel) p =
  bind (listDirectory p) (fun listing =>
    bind (forOf (entries listing) (removeEntry fuel p)) (fun _ => rmdir p)).
Proof. reflexivity. Qed.

Section Loop.

Variables (fuel : nat) (p : jsstring) (q : list jsstring) (h : nat).
Hypothesis Hq : resolve p = q.
Hypothesis IH :
  forall p' st d x cs_d cs,
    sftp (session st) = Some h ->
    resolve p' = d ++ [x] ->
    nodeAt d (remote (world st)) = Some (Dir cs_d) ->
    assoc x cs_d = Some (Dir cs) ->
    wf (Dir cs) = true -> (depth (Dir cs) <= fuel)%nat ->
    exists st', removeRecursive fuel p' st = (st', Ok tt)
                /\ reaches st st' (setAt d (Dir (removeKey x cs_d)) (remote (world st)))
                           (removalCalls p' (Dir cs)).

Lemma removeEntry_head y c rest st :
  sftp (session st) = Some h ->
  nodeAt q (remote (world st)) = Some (Dir ((y, c) :: rest)) ->
  removable fuel (y, c) ->
  exists st', removeEntry fuel p (entryInfo (y, c)) st = (st', Ok tt)
              /\ reaches st st' (setAt q (Dir rest) (remote (world st)))
                         (entryCalls p (y, c)).
Proof.
  intros Hh Hl (Hy & Hc & Hd). cbn in Hy, Hc, Hd.
  unfold removeEntry. rewrite entryInfo_isDirectory. cbn [snd].
  change (filename (entryInfo (y, c))) with y.
  assert (Hres : resolve (p ++ js "/" ++ y) = q ++ [y])
    by (rewrite resolve_entry, Hq; done).
  assert (Hrm : removeKey y ((y, c) :: rest) = rest)
    by (cbn; by rewrite bool_decide_eq_true_2).
  assert (Has : assoc y ((y, c) :: rest) = Some c)
    by (cbn; by rewrite bool_decide_eq_true_2).
  destruct c as [|cs]; cbn [isDir].
  - apply unlink_run with (h := h); [done|]. rewrite Hres.
    apply alterEntry_setAt with (cs := (y, File) :: rest); [done|].
    unfold unlinkEntry. by rewrite Has, Hrm.
  - destruct (IH (p ++ js "/" ++ y) st q y ((y, Dir cs) :: rest) cs
                Hh Hres Hl Has Hc Hd) as (st' & Hrun & Hreach).
    rewrite Hrm in Hreach. eauto.
Qed.

Lemma removeEntries rest st :
  sftp (session st) = Some h ->
  nodeAt q (remote (world st)) = Some (Dir rest) ->
  Forall (removable fuel) rest ->
  exists st', forOf (entryInfo <$> rest) (removeEntry fuel p) st = (st', Ok tt)
              /\ reaches st st' (setAt q (Dir []) (remote (world st)))
                         (concat (entryCalls p <$> rest)).
Proof.
  revert st. induction rest as [|[y c] rest IHrest]; intros st Hh Hl Hall.
  - exists st. split; [reflexivity|]. repeat split; cbn.
    + symmetry. by apply setAt_same.
    + by rewrite app_nil_r.
  - apply Forall_cons in Hall as [Hhead Hall].
    destruct (removeEntry_head y c rest st Hh Hl Hhead) as (st1 & Hrun1 & Hreach1).
    assert (Hh1 : sftp (session st1) = Some h)
      by (destruct Hreach1 as (_ & _ & _ & _ & Hs); congruence).
    assert (Hl1 : nodeAt q (remote (world st1)) = Some (Dir rest)).
    { destruct Hreach1 as (-> & _). apply nodeAt_setAt. eauto. }
    destruct (IHrest st1 Hh1 Hl1 Hall) as (st2 & Hrun2 & Hreach2).
    exists st2. split.
    + cbn [fmap list_fmap forOf]. unfold bind. 
      change (list_fmap _ _ entryInfo rest) with (entryInfo <$> rest).
      rewrite Hrun1. exact Hrun2.
    + cbn [fmap list_fmap concat].
      replace (setAt q (Dir []) (remote (world st)))
        with (setAt q (Dir []) (remote (world st1))).
      * eapply reaches_trans; eassumption.
      * destruct Hreach1 as (-> & _). apply setAt_setAt. eauto.
Qed.

End Loop.


Lemma removeRecursive_tree fuel :
  forall p st h d x cs_d cs,
    sftp (session st) = Some h ->
    resolve p = d ++ [x] ->
    nodeAt d (remote (world st)) = Some (Dir cs_d) ->
    assoc x cs_d = Some (Dir cs) ->
    wf (Dir cs) = true -> (depth (Dir cs) <= fuel)%nat ->
    exists st', removeRecursive fuel p st = (st', Ok tt)
                /\ reaches st st' (setAt d (Dir (removeKey x cs_d)) (remote (world st)))
                           (removalCalls p (Dir cs)).
Proof.
  induction fuel as [|fuel IH]; intros p st h d x cs_d cs Hh Hres Hd Hx Hwf Hdepth.
  - cbn in Hdepth. lia.
  - assert (Hl : nodeAt (d ++ [x]) (remote (world st)) = Some (Dir cs)).
    { rewrite nodeAt_app, Hd. cbn. by rewrite Hx. }
    rewrite removeRecursive_unfold.
    destruct (listDirectory_run p st h cs Hh) as (st1 & Hrun1 & Hreach1);
      [by rewrite Hres|].
    pose proof Hreach1 as (Hr1 & _ & _ & _ & Hs1).
    destruct (removeEntries fuel p (d ++ [x]) h Hres (fun p' st' => IH p' st' h) cs st1)
      as (st2 & Hrun2 & Hreach2);
      [congruence | by rewrite Hr1 | by apply removable_children |].
    pose proof Hreach2 as (Hr2 & _ & _ & _ & Hs2).
    rewrite Hr1 in Hr2. rewrite (setAt_snoc d x _ cs_d (Dir cs)) in Hr2 by done.
    destruct (rmdir_run p st2 h (setAt d (Dir (removeKey x cs_d)) (remote (world st))))
      as (st3 & Hrun3 & Hreach3); [congruence | |].
    { rewrite Hres, Hr2.
      rewrite (alterEntry_setAt rmdirEntry d x (setKey x (Dir []) cs_d)
                 (removeKey x cs_d)).
      - f_equal. apply setAt_setAt. eauto.
      - apply nodeAt_setAt. eauto.
      - unfold rmdirEntry. rewrite assoc_setKey. f_equal.
        apply removeKey_setKey. eauto. }
    exists st3. split.
    + unfold bind. rewrite Hrun1. cbn [entries]. rewrite Hrun2. exact Hrun3.
    + pose proof (reaches_trans _ _ _ _ _ _ _ Hreach1
                    (reaches_trans _ _ _ _ _ _ _ Hreach2 Hreach3)) as Hreach.
      exact Hreach.
Qed.


Lemma alterDir_refused f d cs root :
  nodeAt d root = Some (Dir cs) -> f cs = None -> alterDir f d root = None.
Proof.
  revert root. induction d as [|y d IH]; intros root; cbn.
  - intros [= ->] Hf. cbn. by rewrite Hf.
  - destruct root as [|cs0]; [done..|].
    destruct (assoc y cs0) as [c|] eqn:E; [|done].
    intros Hl Hf. by rewrite (IH c Hl Hf).
Qed.

Lemma wf_nodeAt q root n : wf root = true -> nodeAt q root = Some n -> wf n = true.
Proof.
  revert root. induction q as [|x q IH]; intros root Hwf; cbn; [congruence|].
  destruct root as [|cs]; [done..|].
  destruct (assoc x cs) as [c|] eqn:E; [|done].
  apply IH. cbn in Hwf. apply andb_true_iff in Hwf as [_ Hwf].
  clear -E Hwf. induction cs as [|[k u] cs IHcs]; cbn in *; [done|].
  apply andb_true_iff in Hwf as [[_ Hu]%andb_true_iff Hwf].
  destruct (bool_decide (k = x)); [congruence | auto].
Qed.

Lemma wf_NoDup cs : wf (Dir cs) = true -> NoDup cs.*1.
Proof. cbn. intros [Hnd _]%andb_true_iff. by apply bool_decide_eq_true in Hnd. Qed.

Lemma nodeAt_parent d x root n :
  nodeAt (d ++ [x]) root = Some n ->
  exists cs_d, nodeAt d root = Some (Dir cs_d) /\ assoc x cs_d = Some n.
Proof.
  rewrite nodeAt_app. destruct (nodeAt d root) as [[|cs_d]|]; cbn; try done.
  destruct (assoc x cs_d) eqn:E; [|done]. intros [= ->]. eauto.
Qed.

Lemma nodeAt_removed d x cs_d root q' :
  nodeAt d root = Some (Dir cs_d) -> NoDup cs_d.*1 ->
  nodeAt ((d ++ [x]) ++ q') (setAt d (Dir (removeKey x cs_d)) root) = None.
Proof.
  intros Hd Hnd. rewrite <- app_assoc, nodeAt_app, nodeAt_setAt by eauto.
  cbn. by rewrite assoc_removeKey.
Qed.

Lemma stat_run p st h n :
  sftp (session st) = Some h ->
  nodeAt (resolve p) (remote (world st)) = Some n ->
  exists st' info,
    stat p st = (st', Ok info) /\ isDirectory info = isDir n
    /\ reaches st st' (remote (world st)) [].
Proof.
  intros Hh Hl. unfold stat, bind, getSFTP, query, touch, ret.
  rewrite Hh. cbn. unfold serveStat. rewrite Hl. cbn.
  do 2 eexists. split; [reflexivity|]. split; [by destruct n|].
  repeat split. cbn. by rewrite app_nil_r.
Qed.

Lemma rmdir_refused p st h :
  sftp (session st) = Some h ->
  is_Some (nodeAt (resolve p) (remote (world st))) ->
  alterEntry rmdirEntry (resolve p) (remote (world st)) = None ->
  exists st',
    rmdir p st = (st', Throw (js "Failed to remove directory: " ++ js "Failure"))
    /\ reaches st st' (remote (world st)) [Rmdir p].
Proof.
  intros Hh [n Hn] Hr. unfold rmdir, bind, getSFTP, command, touch. rewrite Hh.
  cbn. unfold onRemote. cbn. rewrite Hr. cbn. unfold refusal. cbn. rewrite Hn.
  eexists. split; [reflexivity|]. by repeat split.
Qed.

(** C5, as amended.  [remove] of a path that names an entry of a
    well-formed remote tree:
    - a directory, with [recursive]: given the recursion depth its nesting
      needs, the call succeeds, nothing remains at or under the path, and the
      requests made are those of a depth-first removal that takes the
      entries of each directory in the order of its listing, files and
      subdirectories as they come, and removes the directory last;
    - a directory, without [recursive]: one [rmdir] request is made, which
      succeeds for an empty directory and is refused otherwise;
    - anything else: the entry is unlinked. *)
Theorem remove_behaviour (fuel : nat) (p : jsstring) (recursive : option bool)
    (st : State TreeWorld.t) (h : nat) (n : node) :
  sftp (session st) = Some h ->
  wf (remote (world st)) = true ->
  resolve p <> [] ->
  nodeAt (resolve p) (remote (world st)) = Some n ->
  exists st' r,
    remove fuel p recursive st = (st', r)
    /\ match n with
       | Dir cs =>
           if default false recursive then
             (depth n <= fuel)%nat ->
             r = Ok tt
             /\ (forall q', nodeAt (resolve p ++ q') (remote (world st')) = None)
             /\ calls (world st') = calls (world st) ++ removalCalls p n
           else
             calls (world st') = calls (world st) ++ [Rmdir p]
             /\ match cs with
                | [] => r = Ok tt
                        /\ nodeAt (resolve p) (remote (world st')) = None
                | _ :: _ => r = Throw (refusedMessage)
                            /\ remote (world st') = remote (world st)
                end
       | _ =>
           r = Ok tt
           /\ calls (world st') = calls (world st) ++ [Unlink p]
           /\ nodeAt (resolve p) (remote (world st')) = None
       end.
Proof.
  intros Hh Hwf Hne Hl.
  destruct (exists_last Hne) as (d & x & Hres). rewrite Hres in Hl |- *.
  destruct (nodeAt_parent _ _ _ _ Hl) as (cs_d & Hd & Hx).
  pose proof (wf_NoDup _ (wf_nodeAt _ _ _ Hwf Hd)) as Hnd.
  destruct (stat_run p st h n Hh) as (st1 & info & Hstat & Hdir & Hreach1);
    [by rewrite Hres|].
  pose proof Hreach1 as (Hr1 & _ & _ & _ & Hs1).
  assert (Hh1 : sftp (session st1) = Some h) by congruence.
  assert (Hleaf : forall st2,
    isDir n = false ->
    reaches st1 st2 (setAt d (Dir (removeKey x cs_d)) (remote (world st1))) [Unlink p] ->
    calls (world st2) = calls (world st) ++ [Unlink p]
    /\ nodeAt (d ++ [x]) (remote (world st2)) = None).
  { intros st2 _ Hreach2.
    pose proof (reaches_trans _ _ _ _ _ _ _ Hreach1 Hreach2) as (Hr & Hc & _).
    split; [exact Hc|]. rewrite Hr, Hr1.
    rewrite <- (app_nil_r (d ++ [x])). by apply nodeAt_removed. }
  assert (Hunlink : isDir n = false ->
    exists st2, unlink p st1 = (st2, Ok tt)
      /\ reaches st1 st2 (setAt d (Dir (removeKey x cs_d)) (remote (world st1))) [Unlink p]).
  { intros Hn. apply unlink_run with (h := h); [done|]. rewrite Hres, Hr1.
    apply alterEntry_setAt with (cs := cs_d); [done|].
    unfold unlinkEntry. rewrite Hx. by destruct n. }
  unfold remove, tryCatch, bind. rewrite Hstat, Hdir.
  destruct n as [|cs]; cbn [isDir].
  - destruct (Hunlink eq_refl) as (st2 & Hrun & Hreach2). rewrite Hrun.
    do 2 eexists. split; [reflexivity|].
    split; [done|]. by apply Hleaf.
  - clear Hleaf Hunlink. destruct (default false recursive).
    + destruct (le_dec (depth (Dir cs)) fuel) as [Hfuel|Hfuel].
      * destruct (removeRecursive_tree fuel p st1 h d x cs_d cs Hh1 Hres)
          as (st2 & Hrun & Hreach2);
          [by rewrite Hr1 | done | by apply (wf_nodeAt _ _ _ Hwf Hl) | done |].
        rewrite Hrun. do 2 eexists. split; [reflexivity|]. intros _.
        pose proof (reaches_trans _ _ _ _ _ _ _ Hreach1 Hreach2) as (Hr & Hc & _).
        split; [done|]. split; [|exact Hc].
        intros q'. rewrite Hr, Hr1. by apply nodeAt_removed.
      * destruct (removeRecursive fuel p st1) as [st2 [[]|e|]];
          do 2 eexists; (split; [reflexivity|]); intros; lia.
    + destruct cs as [|c cs].
      * destruct (rmdir_run p st1 h (setAt d (Dir (removeKey x cs_d)) (remote (world st1))))
          as (st2 & Hrun & Hreach2); [done| |].
        { rewrite Hres, Hr1. apply alterEntry_setAt with (cs := cs_d); [done|].
          unfold rmdirEntry. by rewrite Hx. }
        rewrite Hrun. do 2 eexists. split; [reflexivity|].
        pose proof (reaches_trans _ _ _ _ _ _ _ Hreach1 Hreach2) as (Hr & Hc & _).
        split; [exact Hc|]. split; [done|]. rewrite Hr, Hr1.
        rewrite <- (app_nil_r (d ++ [x])). by apply nodeAt_removed.
      * destruct (rmdir_refused p st1 h Hh1) as (st2 & Hrun & Hreach2).
        { rewrite Hres, Hr1. eauto. }
        { rewrite Hres, Hr1. unfold alterEntry. rewrite unsnoc_snoc.
          apply alterDir_refused with (cs := cs_d); [done|].
          unfold rmdirEntry. by rewrite Hx. }
        rewrite Hrun. do 2 eexists. split; [reflexivity|].
        pose proof (reaches_trans _ _ _ _ _ _ _ Hreach1 Hreach2) as (Hr & Hc & _).
        split; [exact Hc|]. split; [done|]. by rewrite Hr.
Qed.

End Removal.

Section RemovalExamples.
Import SFTPOperations TreeWorld RemoveSpec Examples.

Lemma remove_behaviour_witness :
  exists st' r,
    remove 3 (js "/tmp") (Some true) aState = (st', r)
    /\ ((depth tmpTree <= 3)%nat ->
        r = Ok tt
        /\ (forall q', nodeAt (resolve (js "/tmp") ++ q') (remote (world st')) = None)
        /\ calls (world st') = calls (world aState) ++ removalCalls (js "/tmp") tmpTree).
Proof.
  apply (remove_behaviour 3 (js "/tmp") (Some true) aState 1 tmpTree);
    vm_compute; (reflexivity || discriminate).
Defined.

(** C5 as stated does not hold: a file listed before a subdirectory is
    unlinked before that subdirectory is removed. *)
Lemma file_unlinked_before_subdirectory :
  ~ (forall fuel p st st' cs x y csy,
       nodeAt (resolve p) (remote (world st)) = Some (Dir cs) ->
       assoc x cs = Some File ->
       assoc y cs = Some (Dir csy) ->
       remove fuel p (Some true) st = (st', Ok tt) ->
       callsBefore (Rmdir (p ++ js "/" ++ y)) (Unlink (p ++ js "/" ++ x))
                   (calls (world st')) = true).
Proof.
  intros claim.
  assert (Hdir : nodeAt (resolve (js "/tmp")) (remote (world aState))
                 = Some (Dir tmpEntries)) by (vm_compute; reflexivity).
  assert (Hfile : assoc (js "a") tmpEntries = Some File)
    by (vm_compute; reflexivity).
  assert (Hsub : assoc (js "b") tmpEntries = Some (Dir subEntries))
    by (vm_compute; reflexivity).
  assert (Hrun : remove 3 (js "/tmp") (Some true) aState
                 = ((remove 3 (js "/tmp") (Some true) aState).1, Ok tt))
    by (vm_compute; reflexivity).
  pose proof (claim _ _ _ _ _ _ _ _ Hdir Hfile Hsub Hrun) as Hbefore.
  vm_compute in Hbefore. discriminate.
Qed.

End RemovalExamples.

(** * Further properties *)

(** ** The registry during its life *)

Section RegistryMore.

Import SessionManager RegistrySpec RegistryInvariants Examples.

(** *** The map *)

Lemma mapGet_elem k v l : mapGet k l = Some v -> (k, v) ∈ l.
Proof.
  induction l as [|[k' v'] l IH]; cbn; [done|].
  case_bool_decide as E.
  - intros [= ->]. subst. left.
  - intros Hg. right. auto.
Qed.

Lemma mapGet_unique k v l : NoDup l.*1 -> (k, v) ∈ l -> mapGet k l = Some v.
Proof.
  induction l as [|[k' v'] l IH]; cbn; [by intros _ ?%elem_of_nil|].
  intros [Hk Hnd]%NoDup_cons [[= -> ->]|Hin]%elem_of_cons.
  - by rewrite bool_decide_eq_true_2.
  - case_bool_decide as E; [|auto]. subst k'.
    exfalso. apply Hk. apply list_elem_of_fmap. by exists (k, v).
Qed.

Lemma mapGet_None k l : mapGet k l = None <-> k ∉ l.*1.
Proof.
  induction l as [|[k' v'] l IH]; cbn.
  - split; [intros _; apply not_elem_of_nil | done].
  - rewrite not_elem_of_cons. case_bool_decide as E.
    + split; [done | intros [Hne _]; congruence].
    + rewrite IH. split; [intros ?; split; [congruence | done] | by intros [_ ?]].
Qed.

Lemma mapGet_mapSet k v l : mapGet k (mapSet k v l) = Some v.
Proof.
  induction l as [|[k' v'] l IH]; cbn.
  - by rewrite bool_decide_eq_true_2.
  - case_bool_decide as E; cbn.
    + by rewrite bool_decide_eq_true_2.
    + by rewrite bool_decide_eq_false_2.
Qed.

Lemma mapGet_mapSet_ne k k' v l : k' <> k -> mapGet k' (mapSet k v l) = mapGet k' l.
Proof.
  intros Hne. induction l as [|[k0 v0] l IH]; cbn.
  - by rewrite bool_decide_eq_false_2.
  - case_bool_decide as E; cbn.
    + subst k0. by rewrite !bool_decide_eq_false_2.
    + by rewrite IH.
Qed.

Lemma mapSet_keys k v l :
  (mapSet k v l).*1 = if bool_decide (k ∈ l.*1) then l.*1 else l.*1 ++ [k].
Proof.
  induction l as [|[k' v'] l IH]; cbn.
  - by rewrite bool_decide_eq_false_2 by apply not_elem_of_nil.
  - destruct (decide (k' = k)) as [->|Hne].
    + rewrite bool_decide_eq_true_2 by done. cbn.
      by rewrite bool_decide_eq_true_2 by left.
    + rewrite bool_decide_eq_false_2 by done. cbn. rewrite IH.
      destruct (decide (k ∈ l.*1)) as [Hin|Hnin].
      * by rewrite !bool_decide_eq_true_2 by (done || by right).
      * rewrite !bool_decide_eq_false_2; [done | | done].
        rewrite not_elem_of_cons. split; [congruence | done].
Qed.

Lemma mapSet_NoDup k v l : NoDup l.*1 -> NoDup (mapSet k v l).*1.
Proof.
  intros Hnd. rewrite mapSet_keys. case_bool_decide as E; [done|].
  apply NoDup_app. split; [done|]. split; [|apply NoDup_singleton].
  intros x Hx Hx2. apply list_elem_of_singleton in Hx2. by subst.
Qed.


Lemma filter_all {A} (P : A -> Prop) `{forall x, Decision (P x)} (l : list A) :
  Forall P l -> filter P l = l.
Proof.
  induction 1 as [|x l Hx Hl IH]; [done|].
  by rewrite filter_cons_True, IH.
Qed.

Lemma mapDelete_filter k l :
  NoDup l.*1 -> mapDelete k l = filter (fun kv => kv.1 <> k) l.
Proof.
  induction l as [|[k' v'] l IH]; [done|].
  intros Hnd. cbn in Hnd. apply NoDup_cons in Hnd as [Hk Hnd].
  cbn [mapDelete]. destruct (decide (k' = k)) as [->|Hne].
  - rewrite bool_decide_eq_true_2 by done.
    rewrite filter_cons_False by (cbn; tauto).
    symmetry. apply filter_all.
    apply Forall_forall. intros [k2 v2] Hin. cbn. intros ->.
    apply Hk. apply list_elem_of_fmap. by exists (k, v2).
  - rewrite bool_decide_eq_false_2 by done.
    rewrite filter_cons_True by done. by rewrite IH.
Qed.

Lemma mapDelete_keys k l x : x ∈ (mapDelete k l).*1 -> x ∈ l.*1.
Proof.
  induction l as [|[k' v'] l IH]; cbn; [done|].
  case_bool_decide as E; cbn.
  - by right.
  - intros [->|Hin]%elem_of_cons; [left | right; auto].
Qed.

Lemma mapDelete_NoDup k l : NoDup l.*1 -> NoDup (mapDelete k l).*1.
Proof.
  induction l as [|[k' v'] l IH]; cbn; [done|].
  intros [Hk Hnd]%NoDup_cons. case_bool_decide as E; cbn; [done|].
  apply NoDup_cons. split; [|auto]. intros Hin. by apply Hk, (mapDelete_keys k).
Qed.

Lemma filter_keys_NoDup (P : jsstring * SSHSession -> Prop)
    `{forall x, Decision (P x)} l :
  NoDup l.*1 -> NoDup (filter P l).*1.
Proof.
  induction l as [|kv l IH]; [done|].
  intros Hnd. cbn in Hnd. apply NoDup_cons in Hnd as [Hk Hnd].
  rewrite filter_cons. destruct (decide (P kv)); [|auto].
  cbn. apply NoDup_cons. split; [|auto].
  intros [kv' [Hkey Hin]]%list_elem_of_fmap.
  apply list_elem_of_filter in Hin as [_ Hin].
  apply Hk. apply list_elem_of_fmap. eauto.
Qed.

Lemma filter_ext_in {A} (P Q : A -> Prop) `{forall x, Decision (P x)}
    `{forall x, Decision (Q x)} (l : list A) :
  (forall x, x ∈ l -> P x <-> Q x) -> filter P l = filter Q l.
Proof.
  induction l as [|x l IH]; [done|]. intros Hext.
  rewrite !filter_cons.
  assert (Hx : P x <-> Q x) by (apply Hext; left).
  rewrite IH by (intros y Hy; apply Hext; by right).
  destruct (decide (P x)), (decide (Q x)); tauto.
Qed.

Lemma alter_keys (f : SSHSession -> SSHSession) i (l : list (jsstring * SSHSession)) :
  (alter (fun kv => (kv.1, f kv.2)) i l).*1 = l.*1.
Proof.
  revert i. induction l as [|kv l IH]; intros [|i]; cbn; [done..|].
  by rewrite <- (IH i).
Qed.

Lemma findFrom_lookup k0 l c i s :
  findFrom k0 l c = Some (i, s) ->
  exists key, l !! (i - k0)%nat = Some (key, s).
Proof.
  revert k0. induction l as [|[key v] l IH]; intros k0; cbn; [done|].
  destruct (sameTarget (credentials v) c).
  - intros [= <- <-]. rewrite Nat.sub_diag. eauto.
  - intros Hf. pose proof (findFrom_ge _ _ _ _ _ Hf) as Hge.
    destruct (IH _ Hf) as [key' Hl]. exists key'.
    replace (i - k0)%nat with (S (i - S k0)) by lia. exact Hl.
Qed.

(** *** The invariant of the registry *)

Lemma consistent_new timeout limit : consistent (new timeout limit).
Proof. repeat split; constructor. Qed.

Lemma consistent_createSession mgr c env :
  consistent mgr -> consistent (createSession mgr c env).1.1.
Proof.
  intros (Hu & Hi & Hc). unfold createSession.
  assert (Hopen : consistent (openSession mgr c env).1.1).
  { unfold openSession. destruct (_ >=? _); [done|].
    destruct (establish c env) as [eff [m|h]]; [done|].
    repeat split; cbn.
    - by apply mapSet_NoDup.
    - by apply Forall_mapSet.
    - by apply Forall_mapSet. }
  destruct (findExistingSession mgr c) as [[i s]|]; [|done].
  destruct (isConnected s); [|done].
  repeat split; unfold keysUnique, keysAreIds, allConnected, touch; cbn.
  - by rewrite alter_keys.
  - by apply Forall_alter.
  - by apply Forall_alter.
Qed.

Lemma consistent_getSession mgr sessionId now :
  consistent mgr -> consistent (getSession mgr sessionId now).1.
Proof.
  intros (Hu & Hi & Hc). unfold getSession.
  destruct (mapGet sessionId (sessions mgr)) as [s|] eqn:Hg; [|done].
  destruct (isConnected s) eqn:E; [|done].
  apply mapGet_elem in Hg.
  assert (Hid : id s = sessionId).
  { unfold keysAreIds in Hi. rewrite Forall_forall in Hi. apply (Hi _ Hg). }
  split; [|split]; cbn.
  - by apply mapSet_NoDup.
  - by apply Forall_mapSet.
  - by apply Forall_mapSet.
Qed.

Lemma consistent_closeSession mgr sessionId :
  consistent mgr -> consistent (closeSession mgr sessionId).1.1.
Proof.
  intros (Hu & Hi & Hc). unfold closeSession.
  destruct (mapGet sessionId (sessions mgr)); [|done].
  repeat split; cbn.
  - by apply mapDelete_NoDup.
  - by apply Forall_mapDelete.
  - by apply Forall_mapDelete.
Qed.

(** *** The ceiling *)



(** X2.  With the registry full, [createSession] makes no call on the
    transport and registers nothing: it either rejects with the limit
    message or hands out the identifier of a connected session that is
    already registered for the target. *)
Theorem createSession_at_limit (mgr : t) (c : SSHCredentials) (env : Env) :
  maxSessions mgr <= Z.of_nat (length (sessions mgr)) ->
  exists m' r,
    createSession mgr c env = (m', [], r)
    /\ length (sessions m') = length (sessions mgr)
    /\ (r = inl (limitMessage mgr)
        \/ exists i s, findExistingSession mgr c = Some (i, s)
                       /\ isConnected s = true /\ r = inr (id s)).
Proof.
  intros Hfull. unfold createSession.
  assert (Hopen : openSession mgr c env = (mgr, [], inl (limitMessage mgr))).
  { unfold openSession.
    destruct (Z.geb_spec (Z.of_nat (length (sessions mgr))) (maxSessions mgr));
      [done | lia]. }
  destruct (findExistingSession mgr c) as [[i s]|] eqn:Hf.
  - destruct (isConnected s) eqn:Hc.
    + do 2 eexists. split; [reflexivity|]. split.
      * cbn. by rewrite length_alter.
      * right. eauto.
    + rewrite Hopen. do 2 eexists. split; [reflexivity|]. auto.
  - rewrite Hopen. do 2 eexists. split; [reflexivity|]. auto.
Qed.

Lemma createSession_at_limit_witness :
  exists m' r,
    createSession (createSession (new None (Some 1)) defaultPortCreds firstEnv).1.1
                  defaultPortCreds secondEnv = (m', [], r)
    /\ length (sessions m') = 1%nat.
Proof.
  destruct (createSession_at_limit
              (createSession (new None (Some 1)) defaultPortCreds firstEnv).1.1
              defaultPortCreds secondEnv) as (m' & r & Hrun & Hlen & _).
  - vm_compute. discriminate.
  - exists m', r. split; [exact Hrun|]. rewrite Hlen. vm_compute. reflexivity.
Defined.

(** *** Identifiers *)

(** X3.  The identifier [createSession] returns is good for [getSession]:
    the lookup succeeds, the session it gives carries that identifier, is
    connected, and is stamped with the time of the lookup. *)
Theorem createSession_then_getSession (mgr m1 : t) (c : SSHCredentials)
    (env : Env) (eff : list Effect) (sessionId : jsstring) (now : Z) :
  consistent mgr ->
  createSession mgr c env = (m1, eff, inr sessionId) ->
  exists m2 s,
    getSession m1 sessionId now = (m2, inr s)
    /\ id s = sessionId /\ isConnected s = true /\ lastActivity s = now.
Proof.
  intros (Hu & Hi & Hc). unfold createSession.
  assert (Hget : forall m s0, mapGet sessionId (sessions m) = Some s0 ->
            id s0 = sessionId -> isConnected s0 = true ->
            exists m2 s, getSession m sessionId now = (m2, inr s)
              /\ id s = sessionId /\ isConnected s = true /\ lastActivity s = now).
  { intros m s0 Hg Hid Hcon. unfold getSession. rewrite Hg, Hcon.
    do 2 eexists. split; [reflexivity|]. by cbn. }
  destruct (findExistingSession mgr c) as [[i s]|] eqn:Hf.
  - assert (Hcon : isConnected s = true).
    { destruct (findFrom_elem _ _ _ _ _ Hf) as [key Hin].
      unfold allConnected in Hc. rewrite Forall_forall in Hc. apply (Hc _ Hin). }
    rewrite Hcon. intros [= <- <- <-].
    destruct (findFrom_lookup _ _ _ _ _ Hf) as [key Hl].
    rewrite Nat.sub_0_r in Hl.
    assert (Hkey : id s = key).
    { unfold keysAreIds in Hi. rewrite Forall_forall in Hi.
      apply (Hi (key, s)). by eapply list_elem_of_lookup_2. }
    destruct (Hget (touch i (env_now env) mgr) (set_lastActivity (env_now env) s))
      as (m2 & s' & Hrun & H1 & H2 & H3); [|reflexivity|exact Hcon|].
    { unfold touch. cbn [sessions]. apply mapGet_unique.
      - by rewrite alter_keys.
      - eapply list_elem_of_lookup_2 with (i := i).
        rewrite list_lookup_alter, Hl. cbn.
        case_decide; [by rewrite Hkey | done]. }
    exists m2, s'. auto.
  - unfold openSession. destruct (_ >=? _); [done|].
    destruct (establish c env) as [eff0 [m|h]]; [done|].
    intros [= <- <- <-].
    destruct (Hget
      (mkManager
         (mapSet (env_uuid env)
            (mkSession (env_uuid env) c (env_client env) (Some h) true
               (env_now env) (env_now env) 0) (sessions mgr))
         (sessionTimeout mgr) (maxSessions mgr))
      (mkSession (env_uuid env) c (env_client env) (Some h) true
         (env_now env) (env_now env) 0))
      as (m2 & s' & Hrun & H1 & H2 & H3); [apply mapGet_mapSet|reflexivity|reflexivity|].
    exists m2, s'. auto.
Qed.

Lemma createSession_then_getSession_witness :
  exists m2 s,
    getSession (createSession (new None None) defaultPortCreds firstEnv).1.1
               (js "id-1") 1500 = (m2, inr s)
    /\ id s = js "id-1" /\ isConnected s = true /\ lastActivity s = 1500.
Proof.
  apply (createSession_then_getSession (new None None) _ defaultPortCreds
           firstEnv
           (createSession (new None None) defaultPortCreds firstEnv).1.2).
  - repeat split; constructor.
  - vm_compute. reflexivity.
Defined.

(** *** Closing *)



(** *** The sweep *)

Lemma closeSession_sessions mgr sessionId :
  keysUnique mgr ->
  sessions (closeSession mgr sessionId).1.1
  = filter (fun kv => kv.1 <> sessionId) (sessions mgr)
  /\ sessionTimeout (closeSession mgr sessionId).1.1 = sessionTimeout mgr
  /\ maxSessions (closeSession mgr sessionId).1.1 = maxSessions mgr.
Proof.
  intros Hu. unfold closeSession.
  destruct (mapGet sessionId (sessions mgr)) eqn:Hg; cbn.
  - by rewrite mapDelete_filter.
  - split; [|done]. symmetry. apply filter_all.
    apply mapGet_None in Hg. apply Forall_forall. intros kv Hin Hk.
    apply Hg. apply list_elem_of_fmap. eauto.
Qed.

Lemma closeExpired_sessions ids mgr :
  keysUnique mgr ->
  sessions (closeExpired ids mgr).1 = filter (fun kv => kv.1 ∉ ids) (sessions mgr).
Proof.
  revert mgr. induction ids as [|sessionId ids IH]; intros mgr Hu.
  - cbn. symmetry. apply filter_all, Forall_forall. intros kv _. apply not_elem_of_nil.
  - cbn [closeExpired].
    destruct (closeSession_sessions mgr sessionId Hu) as (Hs & _ & _).
    assert (Hu' : keysUnique (closeSession mgr sessionId).1.1).
    { unfold keysUnique. rewrite Hs. by apply filter_keys_NoDup. }
    specialize (IH _ Hu').
    destruct (closeSession mgr sessionId) as [[mgr' eff] r]. cbn in *.
    destruct (closeExpired ids mgr') as [mgr'' eff']. cbn in *.
    rewrite IH, Hs, list_filter_filter.
    apply filter_ext_in. intros kv _. rewrite not_elem_of_cons. tauto.
Qed.

Lemma cleanup_sessions mgr now :
  keysUnique mgr ->
  sessions (cleanupExpiredSessions mgr now).1
  = filter (fun kv => ~ expired mgr now kv.2) (sessions mgr).
Proof.
  intros Hu. unfold cleanupExpiredSessions.
  pose proof (closeExpired_sessions (expiredSessions mgr now) mgr Hu) as Hs.
  destruct (closeExpired (expiredSessions mgr now) mgr) as [mgr' eff]. cbn in *.
  rewrite Hs. apply filter_ext_in. intros [k v] Hin. cbn.
  unfold expiredSessions, expired. split.
  - intros Hnot Hexp. apply Hnot. apply list_elem_of_fmap.
    exists (k, v). split; [done|]. by apply list_elem_of_filter.
  - intros Hnot [[k' v'] [Hk Hin']]%list_elem_of_fmap. cbn in Hk. subst k'.
    apply list_elem_of_filter in Hin' as [Hexp Hin']. cbn in Hexp.
    apply Hnot.
    pose proof (mapGet_unique _ _ _ Hu Hin) as H1.
    pose proof (mapGet_unique _ _ _ Hu Hin') as H2.
    congruence.
Qed.

Lemma mapGet_filter (P : jsstring * SSHSession -> Prop)
    `{forall x, Decision (P x)} k s l :
  NoDup l.*1 ->
  mapGet k (filter P l) = Some s <-> mapGet k l = Some s /\ P (k, s).
Proof.
  intros Hnd. split.
  - intros [HP Hin]%mapGet_elem%list_elem_of_filter.
    split; [by apply mapGet_unique | done].
  - intros [Hg HP]. apply mapGet_unique; [by apply filter_keys_NoDup|].
    apply list_elem_of_filter. split; [done | by apply mapGet_elem].
Qed.

(** X5.  After [cleanupExpiredSessions] at time [now], an identifier maps
    to a session exactly when it did before and the session has been idle
    for at most [sessionTimeout]: the sweep removes the sessions idle for
    longer and no other. *)
Theorem cleanup_keeps_the_unexpired (mgr : t) (now : Z) (sessionId : jsstring)
    (s : SSHSession) :
  keysUnique mgr ->
  mapGet sessionId (sessions (cleanupExpiredSessions mgr now).1) = Some s
  <-> mapGet sessionId (sessions mgr) = Some s
      /\ now - lastActivity s <= sessionTimeout mgr.
Proof.
  intros Hu. rewrite cleanup_sessions by done.
  rewrite mapGet_filter by done. unfold expired. cbn. split.
  - intros [Hg Hn]. split; [done | lia].
  - intros [Hg Hn]. split; [done | lia].
Qed.

Lemma cleanup_keeps_the_unexpired_witness :
  mapGet (js "id-1")
    (sessions (cleanupExpiredSessions
                 (createSession (new (Some 60000) None) defaultPortCreds firstEnv).1.1
                 61001).1)
  <> Some (mkSession (js "id-1") defaultPortCreds 1 (Some 1%nat) true 1000 1000 0).
Proof.
  intros Hkept.
  apply (cleanup_keeps_the_unexpired
           (createSession (new (Some 60000) None) defaultPortCreds firstEnv).1.1
           61001 (js "id-1")
           (mkSession (js "id-1") defaultPortCreds 1 (Some 1%nat) true 1000 1000 0))
    in Hkept as [_ Hidle].
  - vm_compute in Hidle. by apply Hidle.
  - vm_compute. apply NoDup_singleton.
Defined.

(** X6.  A session fetched with [getSession] at time [stamp] survives every
    sweep that runs no later than [sessionTimeout] after [stamp]. *)
Theorem getSession_extends_idle_window (mgr m1 : t) (sessionId : jsstring)
    (s : SSHSession) (stamp now : Z) :
  keysUnique mgr ->
  getSession mgr sessionId stamp = (m1, inr s) ->
  now - stamp <= sessionTimeout mgr ->
  mapGet sessionId (sessions (cleanupExpiredSessions m1 now).1) = Some s.
Proof.
  intros Hu Hget Hfresh. unfold getSession in Hget.
  destruct (mapGet sessionId (sessions mgr)) as [s0|] eqn:Hg; [|done].
  destruct (isConnected s0); [|done].
  injection Hget as <- <-.
  set (m1 := mkManager _ _ _).
  assert (Hu1 : keysUnique m1) by (by apply mapSet_NoDup).
  rewrite (cleanup_sessions m1 now Hu1).
  apply mapGet_filter; [done|]. split.
  - apply mapGet_mapSet.
  - unfold expired. cbn. lia.
Qed.

Lemma getSession_extends_idle_window_witness :
  mapGet (js "id-1")
    (sessions (cleanupExpiredSessions
       (getSession (createSession (new (Some 60000) None) defaultPortCreds firstEnv).1.1
                   (js "id-1") 50000).1 100000).1)
  = Some (mkSession (js "id-1") defaultPortCreds 1 (Some 1%nat) true 50000 1000 0).
Proof.
  apply (getSession_extends_idle_window
           (createSession (new (Some 60000) None) defaultPortCreds firstEnv).1.1
           _ (js "id-1") _ 50000 100000).
  - vm_compute. apply NoDup_singleton.
  - vm_compute. reflexivity.
  - vm_compute. discriminate.
Defined.


(** *** Every registry a manager can have *)

Lemma consistent_closeEach ids mgr :
  consistent mgr -> consistent (closeEach ids mgr).1.1.
Proof.
  revert mgr. induction ids as [|sessionId ids IH]; intros mgr Hc; [done|].
  cbn [closeEach].
  pose proof (consistent_closeSession mgr sessionId Hc) as Hc'.
  destruct (closeSession mgr sessionId) as [[mgr' eff] [e|[]]]; [done|].
  specialize (IH mgr' Hc').
  by destruct (closeEach ids mgr') as [[mgr'' eff'] r].
Qed.

Lemma consistent_closeExpired ids mgr :
  consistent mgr -> consistent (closeExpired ids mgr).1.
Proof.
  revert mgr. induction ids as [|sessionId ids IH]; intros mgr Hc; [done|].
  cbn [closeExpired].
  pose proof (consistent_closeSession mgr sessionId Hc) as Hc'.
  destruct (closeSession mgr sessionId) as [[mgr' eff] r].
  specialize (IH mgr' Hc').
  by destruct (closeExpired ids mgr') as [mgr'' eff'].
Qed.

Lemma consistent_cleanup mgr now :
  consistent mgr -> consistent (cleanupExpiredSessions mgr now).1.
Proof.
  intros Hc. unfold cleanupExpiredSessions.
  pose proof (consistent_closeExpired (expiredSessions mgr now) mgr Hc) as Hc'.
  by destruct (closeExpired (expiredSessions mgr now) mgr) as [mgr' eff].
Qed.

Lemma consistent_update sessionId f mgr :
  (forall s, id (f s) = id s /\ isConnected (f s) = isConnected s) ->
  consistent mgr -> consistent (update sessionId f mgr).
Proof.
  intros Hf (Hu & Hi & Hc). unfold update.
  destruct (mapGet sessionId (sessions mgr)) as [s|] eqn:Hg; [|done].
  apply mapGet_elem in Hg.
  assert (Hid : id s = sessionId).
  { unfold keysAreIds in Hi. rewrite Forall_forall in Hi. apply (Hi _ Hg). }
  assert (Hcon : isConnected s = true).
  { unfold allConnected in Hc. rewrite Forall_forall in Hc. apply (Hc _ Hg). }
  destruct (Hf s) as [Hfid Hfcon].
  split; [|split]; cbn.
  - by apply mapSet_NoDup.
  - apply Forall_mapSet; [cbn; congruence | done].
  - apply Forall_mapSet; [cbn; congruence | done].
Qed.

Lemma consistent_applyOp mgr op : consistent mgr -> consistent (applyOp mgr op).
Proof.
  intros Hc. destruct op; cbn [applyOp].
  - by apply consistent_createSession.
  - by apply consistent_getSession.
  - by apply consistent_closeSession.
  - by apply consistent_closeEach.
  - by apply consistent_cleanup.
  - by apply consistent_update.
  - by apply consistent_update.
Qed.

Lemma consistent_reached timeout limit ops : consistent (reached timeout limit ops).
Proof.
  unfold reached. generalize (consistent_new timeout limit).
  generalize (new timeout limit). induction ops as [|op ops IH]; intros mgr Hc;
    [done|]. cbn. apply IH. by apply consistent_applyOp.
Qed.

(** X8.  In every registry a new manager can come to have (through its
    methods and through the writes that commands and file operations make to
    registered sessions), [getSession] never reports [Session is not
    connected]; it succeeds, with a session carrying the requested
    identifier, exactly when [hasSession] holds. *)
Theorem registered_sessions_are_usable (timeout limit : option Z)
    (ops : list Op) (sessionId : jsstring) (now : Z) :
  let mgr := reached timeout limit ops in
  (getSession mgr sessionId now).2 <> inl (js "Session is not connected: " ++ sessionId)
  /\ (hasSession mgr sessionId = true <->
      exists s, (getSession mgr sessionId now).2 = inr s /\ id s = sessionId).
Proof.
  cbn zeta. destruct (consistent_reached timeout limit ops) as (Hu & Hi & Hc).
  set (mgr := reached timeout limit ops) in *.
  unfold getSession, hasSession.
  destruct (mapGet sessionId (sessions mgr)) as [s|] eqn:Hg.
  - apply mapGet_elem in Hg.
    assert (Hid : id s = sessionId).
    { unfold keysAreIds in Hi. rewrite Forall_forall in Hi. apply (Hi _ Hg). }
    assert (Hcon : isConnected s = true).
    { unfold allConnected in Hc. rewrite Forall_forall in Hc. apply (Hc _ Hg). }
    rewrite Hcon. cbn. split; [done|]. split; [eauto | done].
  - cbn. split.
    + by intros [=].
    + split; [done | by intros (s & ? & _)].
Qed.

(** X9.  In every registry a new manager can come to have, [listSessions]
    reports every registered session, once, in the order of the map: its
    filter on [isConnected] drops nothing. *)
Theorem listSessions_lists_every_session (timeout limit : option Z)
    (ops : list Op) (now : Z) :
  let mgr := reached timeout limit ops in
  info_sessionId <$> listSessions mgr now = (sessions mgr).*1.
Proof.
  cbn zeta. destruct (consistent_reached timeout limit ops) as (Hu & Hi & Hc).
  set (mgr := reached timeout limit ops) in *.
  unfold listSessions. rewrite filter_all by exact Hc.
  clear Hu Hc. unfold keysAreIds in Hi.
  induction Hi as [|[k v] l Hkv Hl IH]; [done|].
  rewrite !fmap_cons, IH. cbn in Hkv |- *. by rewrite Hkv.
Qed.

End RegistryMore.

(** ** Commands, one after another and one at a time *)

(** Case analysis on one delivery: every test the handlers make. *)
Ltac delivery_cases :=
  repeat match goal with
         | |- context [if ?b then _ else _] => destruct b eqn:?; cbn
         | |- context [match ?x with Some _ => _ | None => _ end] =>
             destruct x eqn:?; cbn
         | |- context [match SSHExecutor.promise ?st with _ => _ end] =>
             destruct (SSHExecutor.promise st) eqn:?; cbn
         end.

Section ExecutorMore.

Import SSHExecutor ExecutorSpec Examples.

(** *** Sequences of commands *)

Lemma executeCommands_step s command commands o stopOnError events deliveries :
  executeCommands s (command :: commands) o stopOnError (events :: deliveries)
  = let run := executeCommand s command o events in
    let continue (result : CommandResult) (stop : bool) :=
      if stop then Some (session run, [result])
      else
        match executeCommands (session run) commands o stopOnError deliveries with
        | Some (s', results) => Some (s', result :: results)
        | None => None
        end in
    match promise run with
    | Pending => None
    | Resolved result =>
        continue result (default false stopOnError && exitedNonZero result)
    | Rejected message =>
        continue (failedResult message) (default false stopOnError)
    end.
Proof. reflexivity. Qed.

(** X10.  Without [stopOnError], [executeCommands] returns one result per
    command, whether the commands succeed, fail or are rejected. *)
Theorem executeCommands_one_result_each (s s' : SSHSession)
    (commands : list jsstring) (o : CommandOptions) (stopOnError : option bool)
    (deliveries : list (list Event)) (results : list CommandResult) :
  default false stopOnError = false ->
  executeCommands s commands o stopOnError deliveries = Some (s', results) ->
  length results = length commands.
Proof.
  intros Hstop. revert s deliveries s' results.
  induction commands as [|command commands IH]; intros s deliveries s' results.
  - cbn. by intros [= <- <-].
  - destruct deliveries as [|events deliveries]; [done|].
    rewrite executeCommands_step. cbn zeta. rewrite Hstop. cbn [andb].
    destruct (promise _); [done| |];
      destruct (executeCommands _ commands o stopOnError deliveries)
        as [[s1 rs]|] eqn:Hrest; try done;
      intros [= <- <-]; cbn; f_equal; eauto.
Qed.

Lemma executeCommands_one_result_each_witness :
  length [mkCommandResult (js "hi") [] (Some 0) None;
          failedResult (js "Channel open failure")] = 2%nat.
Proof.
  apply (executeCommands_one_result_each aSession
           (set_lastActivity 2000 (incr_commandCount aSession))
           [js "echo hi"; js "false"] noOptions None
           [[ExecCallback None; StreamData (js "hi" ++ newline); StreamClose (Some 0) None 2000];
            [ExecCallback (Some (js "Channel open failure"))]]).
  - reflexivity.
  - vm_compute. reflexivity.
Defined.

(** X11.  With [stopOnError], [executeCommands] returns at most one result
    per command; every result but the last has exit code 0, and when fewer
    results than commands come back the last one does not have exit
    code 0. *)
Theorem executeCommands_stops_at_first_failure (s s' : SSHSession)
    (commands : list jsstring) (o : CommandOptions)
    (deliveries : list (list Event)) (results : list CommandResult) :
  executeCommands s commands o (Some true) deliveries = Some (s', results) ->
  (length results <= length commands)%nat
  /\ (forall i r, results !! i = Some r -> (S i < length results)%nat ->
        exitCode r = Some 0)
  /\ ((length results < length commands)%nat ->
      exists r, last results = Some r /\ exitCode r <> Some 0).
Proof.
  revert s deliveries s' results.
  induction commands as [|command commands IH]; intros s deliveries s' results.
  - cbn. intros [= <- <-]. cbn. split; [lia|]. split; [done | lia].
  - destruct deliveries as [|events deliveries]; [done|].
    rewrite executeCommands_step. cbn zeta. cbn [default andb].
    assert (Hcont : forall result,
      exitedNonZero result = false ->
      match executeCommands (session (executeCommand s command o events))
              commands o (Some true) deliveries with
      | Some (s1, rs) => Some (s1, result :: rs)
      | None => None
      end = Some (s', results) ->
      (length results <= length (command :: commands))%nat
      /\ (forall i r, results !! i = Some r -> (S i < length results)%nat ->
            exitCode r = Some 0)
      /\ ((length results < length (command :: commands))%nat ->
          exists r, last results = Some r /\ exitCode r <> Some 0)).
    { intros result Hzero.
      destruct (executeCommands _ commands o (Some true) deliveries)
        as [[s1 rs]|] eqn:Hrest; [|done].
      intros [= <- <-]. destruct (IH _ _ _ _ Hrest) as (Hlen & Hfront & Hlast).
      cbn [length]. split; [lia|]. split.
      - intros [|i] r Hr Hi; cbn in Hr.
        + injection Hr as <-. unfold exitedNonZero in Hzero.
          destruct (exitCode result) as [c|]; [|done].
          apply negb_false_iff, Z.eqb_eq in Hzero. by subst.
        + apply (Hfront i r Hr). lia.
      - intros Hshort. destruct Hlast as (r & Hr & Hne); [lia|].
        exists r. split; [|done]. destruct rs; [done|]. exact Hr. }
    assert (Hstop : forall result,
      exitedNonZero result = true ->
      Some (session (executeCommand s command o events), [result])
        = Some (s', results) ->
      (length results <= length (command :: commands))%nat
      /\ (forall i r, results !! i = Some r -> (S i < length results)%nat ->
            exitCode r = Some 0)
      /\ ((length results < length (command :: commands))%nat ->
          exists r, last results = Some r /\ exitCode r <> Some 0)).
    { intros result Hnz [= <- <-]. cbn [length]. split; [lia|]. split.
      - intros i r _ Hi. lia.
      - intros _. exists result. split; [done|].
        unfold exitedNonZero in Hnz. destruct (exitCode result) as [c|]; [|done].
        intros [= ->]. done. }
    destruct (promise _) as [|result|message]; [done | |].
    + destruct (exitedNonZero result) eqn:E; [by apply Hstop | by apply Hcont].
    + by apply Hstop.
Qed.

Lemma executeCommands_stops_at_first_failure_witness :
  exists r, last [mkCommandResult [] (js "no such file") (Some 2) None] = Some r
            /\ exitCode r <> Some 0.
Proof.
  apply (executeCommands_stops_at_first_failure aSession
           (set_lastActivity 2000 (incr_commandCount aSession))
           [js "ls /nowhere"; js "echo unreachable"] noOptions
           [[ExecCallback None; StderrData (js "no such file");
             StreamClose (Some 2) None 2000]; []]).
  - vm_compute. reflexivity.
  - cbn. lia.
Defined.

(** *** The password on the stream *)

Lemma sudo_step_effect o st ev :
  (written (executeSudoCommand_step o st ev) = written st
   /\ passwordSent (executeSudoCommand_step o st ev) = passwordSent st)
  \/ (passwordSent st = false
      /\ passwordSent (executeSudoCommand_step o st ev) = true
      /\ exists pw, sudoPassword o = Some pw /\ truthy pw = true
           /\ written (executeSudoCommand_step o st ev) = written st ++ [pw ++ newline]).
Proof.
  unfold executeSudoCommand_step, onTimer, onExec, onStreamError.
  destruct ev; cbn; delivery_cases; auto.
  unfold sudoData.
  destruct (negb (passwordSent st) && truthyOpt (sudoPassword o) && looksLikePrompt text)
    eqn:E; [|auto].
  apply andb_true_iff in E as [[Hs Ht]%andb_true_iff _].
  apply negb_true_iff in Hs.
  destruct (sudoPassword o) as [pw|]; [|done].
  right. split; [done|]. split; [done|]. exists pw. auto.
Qed.

(** X12.  Whatever the stream delivers, [executeSudoCommand] writes to it
    either nothing or, once, the supplied (non-empty) password followed by a
    newline. *)
Theorem sudo_password_written_at_most_once (s : SSHSession) (command : jsstring)
    (o : CommandOptions) (events : list Event) :
  written (executeSudoCommand s command o events) = []
  \/ exists pw, sudoPassword o = Some pw /\ truthy pw = true
                /\ written (executeSudoCommand s command o events) = [pw ++ newline].
Proof.
  assert (Hinv : forall st,
    (passwordSent st = false /\ written st = []
     \/ passwordSent st = true /\ exists pw, sudoPassword o = Some pw
          /\ truthy pw = true /\ written st = [pw ++ newline]) ->
    let st' := fold_left (executeSudoCommand_step o) events st in
    (passwordSent st' = false /\ written st' = []
     \/ passwordSent st' = true /\ exists pw, sudoPassword o = Some pw
          /\ truthy pw = true /\ written st' = [pw ++ newline])).
  { induction events as [|ev events IH]; intros st Hst; [done|].
    cbn [fold_left]. apply IH.
    destruct (sudo_step_effect o st ev)
      as [[Hw Hs]|(Hs & Hs' & pw & Hpw & Ht & Hw)].
    - rewrite Hw, Hs. exact Hst.
    - right. split; [done|]. exists pw.
      destruct Hst as [[_ Hnil]|[Hsent _]]; [|congruence].
      rewrite Hw, Hnil. auto. }
  destruct (Hinv (start s (sudoCommand command o).1 (sudoCommand command o).2))
    as [[_ Hw]|[_ Hw]]; [by left | by left | by right].
Qed.

(** *** Settled promises *)

Lemma executeCommand_step_settled o st ev :
  promise st <> Pending -> promise (executeCommand_step o st ev) = promise st.
Proof.
  intros Hp. unfold executeCommand_step, onTimer, onExec, onStreamError.
  destruct ev; cbn; delivery_cases; try reflexivity; by destruct (promise st).
Qed.

Lemma executeWithInput_step_settled input o st ev :
  promise st <> Pending -> promise (executeWithInput_step input o st ev) = promise st.
Proof.
  intros Hp. unfold executeWithInput_step, onTimer, onExec, onStreamError.
  destruct ev; cbn; delivery_cases; try reflexivity; by destruct (promise st).
Qed.

Lemma run_settled (step : Run -> Event -> Run) evs st :
  (forall st ev, promise st <> Pending -> promise (step st ev) = promise st) ->
  promise st <> Pending -> promise (fold_left step evs st) = promise st.
Proof.
  intros Hstep. revert st. induction evs as [|ev evs IH]; intros st Hp; [done|].
  cbn. rewrite IH; rewrite Hstep; auto.
Qed.

(** X13.  Once the promise of [executeCommand], [executeWithInput] or
    [executeSudoCommand] is settled, no later event changes its outcome. *)
Theorem promise_settles_once (s : SSHSession) (command input : jsstring)
    (o : CommandOptions) (evs later : list Event) :
  (promise (executeCommand s command o evs) <> Pending ->
   promise (executeCommand s command o (evs ++ later))
   = promise (executeCommand s command o evs))
  /\ (promise (executeWithInput s command input o evs) <> Pending ->
      promise (executeWithInput s command input o (evs ++ later))
      = promise (executeWithInput s command input o evs))
  /\ (promise (executeSudoCommand s command o evs) <> Pending ->
      promise (executeSudoCommand s command o (evs ++ later))
      = promise (executeSudoCommand s command o evs)).
Proof.
  unfold executeCommand, executeWithInput, executeSudoCommand.
  rewrite !fold_left_app. repeat split; intros Hp; apply run_settled; try done.
  - apply executeCommand_step_settled.
  - apply executeWithInput_step_settled.
  - apply sudo_step_settled.
Qed.

Lemma promise_settles_once_witness :
  promise (executeCommand aSession (js "sleep 60") noOptions
             ([ExecCallback None; TimerFired] ++ [StreamClose (Some 0) None 99000]))
  = Rejected (timeoutMessage noOptions).
Proof.
  rewrite (proj1 (promise_settles_once aSession (js "sleep 60") [] noOptions
                    [ExecCallback None; TimerFired] [StreamClose (Some 0) None 99000])).
  - vm_compute. reflexivity.
  - vm_compute. discriminate.
Defined.

(** *** Plain capture *)

Section PlainChunks.

Variable step : Run -> Event -> Run.
Hypothesis step_data : forall st text,
  streamOpen st = true -> step st (StreamData text) = appendOut text st.
Hypothesis step_err : forall st text,
  streamOpen st = true -> step st (StderrData text) = appendErr text st.

Lemma plain_chunks chunks st :
  streamOpen st = true ->
  let st' := fold_left step (chunkEvent <$> chunks) st in
  out st' = out st ++ outText chunks
  /\ err st' = err st ++ errText chunks
  /\ promise st' = promise st
  /\ streamOpen st' = true
  /\ session st' = session st
  /\ written st' = written st.
Proof.
  revert st. induction chunks as [|[text|text] chunks IH]; intros st Hopen.
  - cbn. by rewrite !app_nil_r.
  - cbn [fmap list_fmap chunkEvent fold_left outText errText]. cbn zeta.
    rewrite step_data by done.
    destruct (IH (appendOut text st) Hopen) as (H1 & H2 & H3 & H4 & H5 & H6).
    cbn in H1, H2, H3, H5, H6. rewrite <- app_assoc in H1. auto 10.
  - cbn [fmap list_fmap chunkEvent fold_left outText errText]. cbn zeta.
    rewrite step_err by done.
    destruct (IH (appendErr text st) Hopen) as (H1 & H2 & H3 & H4 & H5 & H6).
    cbn in H1, H2, H3, H5, H6. rewrite <- app_assoc in H2. auto 10.
Qed.

End PlainChunks.

(** X14.  When the stream opens, delivers chunks and closes,
    [executeCommand] resolves with the trimmed concatenation of the
    standard-output chunks, that of the standard-error chunks, and the exit
    code and signal of the close event, whatever is delivered afterwards;
    and at the close the command is counted and the session stamped. *)
Theorem executeCommand_captures_all (s : SSHSession) (command : jsstring)
    (o : CommandOptions) (chunks : list Chunk) (c : option Z)
    (sg : option jsstring) (now : Z) (later : list Event) :
  promise (executeCommand s command o (exchange chunks c sg now later))
  = Resolved (mkCommandResult (trim (outText chunks)) (trim (errText chunks)) c sg)
  /\ session (executeCommand s command o (exchange chunks c sg now []))
     = set_lastActivity now (incr_commandCount s).
Proof.
  unfold executeCommand, exchange. cbn [fold_left]. rewrite !fold_left_app.
  cbn [fold_left].
  set (st0 := start s command false).
  change (executeCommand_step o st0 (ExecCallback None)) with (openStream st0).
  destruct (plain_chunks (executeCommand_step o)
              ltac:(intros st text Ho; unfold executeCommand_step; by rewrite Ho)
              ltac:(intros st text Ho; unfold executeCommand_step; by rewrite Ho)
              chunks (openStream st0) eq_refl)
    as (H1 & H2 & H3 & H4 & H5 & H6).
  cbn in H1, H2, H3, H5.
  set (st := fold_left (executeCommand_step o) (chunkEvent <$> chunks)
               (openStream st0)) in *.
  assert (Hclose : promise (executeCommand_step o st (StreamClose c sg now))
    = Resolved (mkCommandResult (trim (outText chunks)) (trim (errText chunks)) c sg)).
  { unfold executeCommand_step. rewrite H4. unfold settle, recordClose, clearTimeout.
    cbn. by rewrite H3, H1, H2. }
  split.
  - rewrite run_settled; [exact Hclose | apply executeCommand_step_settled |].
    rewrite Hclose. discriminate.
  - unfold executeCommand_step. rewrite H4. cbn. by rewrite H5.
Qed.

(** X15.  Without a (non-empty) password, [executeSudoCommand] runs
    [sudo <command>] without pseudo-terminal, writes nothing to the stream
    and keeps every chunk of standard output, prompt-like or not. *)
Theorem sudo_without_password (s : SSHSession) (command : jsstring)
    (o : CommandOptions) (chunks : list Chunk) (c : option Z)
    (sg : option jsstring) (now : Z) (later : list Event) :
  truthyOpt (sudoPassword o) = false ->
  let run := executeSudoCommand s command o (exchange chunks c sg now later) in
  issued run = js "sudo " ++ command
  /\ pty run = false
  /\ written run = []
  /\ promise run
     = Resolved (mkCommandResult (trim (outText chunks))
                                 (cleanStderr (errText chunks)) c sg).
Proof.
  intros Hno. cbn zeta.
  assert (Hcmd : sudoCommand command o = (js "sudo " ++ command, false)).
  { unfold sudoCommand. destruct (sudoPassword o) as [pw|]; [|done].
    cbn in Hno. by rewrite Hno. }
  assert (Hfields : forall evs st,
    issued (fold_left (executeSudoCommand_step o) evs st) = issued st
    /\ pty (fold_left (executeSudoCommand_step o) evs st) = pty st
    /\ written (fold_left (executeSudoCommand_step o) evs st) = written st).
  { induction evs as [|ev evs IH]; intros st; [done|]. cbn [fold_left].
    destruct (IH (executeSudoCommand_step o st ev)) as (-> & -> & ->).
    split; [|split].
    - unfold executeSudoCommand_step, onTimer, onExec, onStreamError, sudoData.
      destruct ev; cbn; delivery_cases; auto.
    - unfold executeSudoCommand_step, onTimer, onExec, onStreamError, sudoData.
      destruct ev; cbn; delivery_cases; auto.
    - destruct (sudo_step_effect o st ev) as [[Hw _]|(_ & _ & pw & Hpw & Ht & _)];
        [done|]. rewrite Hpw in Hno. cbn in Hno. congruence. }
  destruct (Hfields (exchange chunks c sg now later)
              (start s (sudoCommand command o).1 (sudoCommand command o).2))
    as (Hissued & Hpty & Hwritten).
  split; [|split; [|split]].
  - unfold executeSudoCommand. rewrite Hissued. cbn. by rewrite Hcmd.
  - unfold executeSudoCommand. rewrite Hpty. cbn. by rewrite Hcmd.
  - unfold executeSudoCommand. by rewrite Hwritten.
  - unfold executeSudoCommand, exchange. cbn [fold_left]. rewrite fold_left_app.
    cbn [fold_left].
    set (st0 := start s _ _).
    change (executeSudoCommand_step o st0 (ExecCallback None)) with (openStream st0).
    destruct (plain_chunks (executeSudoCommand_step o)
                ltac:(intros st text Ho; unfold executeSudoCommand_step, sudoData;
                      rewrite Ho, Hno, andb_false_r; reflexivity)
                ltac:(intros st text Ho; unfold executeSudoCommand_step; by rewrite Ho)
                chunks (openStream st0) eq_refl)
      as (H1 & H2 & H3 & H4 & H5 & H6).
    cbn in H1, H2, H3, H5.
    set (st := fold_left (executeSudoCommand_step o) (chunkEvent <$> chunks)
                 (openStream st0)) in *.
    assert (Hclose : promise (executeSudoCommand_step o st (StreamClose c sg now))
      = Resolved (mkCommandResult (trim (outText chunks))
                                  (cleanStderr (errText chunks)) c sg)).
    { unfold executeSudoCommand_step. rewrite H4.
      unfold settle, recordClose, clearTimeout. cbn. by rewrite H3, H1, H2. }
    rewrite run_settled; [exact Hclose | apply sudo_step_settled |].
    rewrite Hclose. discriminate.
Qed.

Lemma sudo_without_password_witness :
  promise (executeSudoCommand aSession (js "id") noOptions
             (exchange [OutChunk (js "password: none needed")] (Some 0) None 2000 []))
  = Resolved (mkCommandResult (js "password: none needed") [] (Some 0) None).
Proof.
  destruct (sudo_without_password aSession (js "id") noOptions
              [OutChunk (js "password: none needed")] (Some 0) None 2000 [] eq_refl)
    as (_ & _ & _ & Hp).
  rewrite Hp. vm_compute. reflexivity.
Defined.

(** *** Input *)

(** X16.  [executeWithInput] writes the input once and ends the input
    side, both when the stream opens; when [exec] fails or has not answered
    nothing is written. *)
Theorem executeWithInput_writes_once (s : SSHSession) (command input : jsstring)
    (o : CommandOptions) (events : list Event) :
  let run := executeWithInput s command input o events in
  written run = (if streamOpen run then [input] else [])
  /\ ended run = streamOpen run.
Proof.
  cbn zeta. unfold executeWithInput.
  assert (Hinv : forall st,
    (execAnswered st = false /\ streamOpen st = false /\ written st = []
       /\ ended st = false
     \/ execAnswered st = true
        /\ written st = (if streamOpen st then [input] else [])
        /\ ended st = streamOpen st) ->
    let st' := fold_left (executeWithInput_step input o) events st in
    written st' = (if streamOpen st' then [input] else [])
    /\ ended st' = streamOpen st').
  { induction events as [|ev events IH]; intros st Hst.
    - cbn. destruct Hst as [(_ & -> & -> & ->)|(_ & -> & ->)]; done.
    - cbn [fold_left]. apply IH. clear IH.
      unfold executeWithInput_step, onTimer, onExec, onStreamError.
      destruct Hst as [(Ha & Ho & Hw & He)|(Ha & Hw & He)].
      + rewrite Ha, Ho. destruct ev; cbn; delivery_cases; rewrite ?Ha, ?Ho, ?Hw, ?He;
          auto.
      + rewrite Ha. destruct ev; cbn; delivery_cases; rewrite ?Ha, ?Hw, ?He;
          try (right; repeat split; congruence);
          right; rewrite ?Heqb; auto. }
  apply Hinv. left. done.
Qed.

(** *** White space around the captured text *)

Lemma trimStart_head s c : head (trimStart s) = Some c -> isWhiteSpace c = false.
Proof.
  induction s as [|d s IH]; cbn; [done|].
  destruct (isWhiteSpace d) eqn:E; [done|]. cbn. by intros [= <-].
Qed.

Lemma last_rev (l : jsstring) : last (rev l) = head l.
Proof. destruct l as [|c l]; [done|]. cbn. apply last_snoc. Qed.

Lemma head_rev (l : jsstring) : head (rev l) = last l.
Proof. rewrite <- (rev_involutive l) at 2. by rewrite last_rev. Qed.

Lemma trimEnd_last s c : last (trimEnd s) = Some c -> isWhiteSpace c = false.
Proof. unfold trimEnd. rewrite last_rev. apply trimStart_head. Qed.

Lemma trimEnd_head s c : head (trimEnd s) = Some c -> head s = Some c.
Proof.
  destruct (trimEnd_prefix s) as [ws Hs]. intros Hh. rewrite Hs.
  by destruct (trimEnd s).
Qed.

Lemma trim_noSurroundingWhiteSpace s : noSurroundingWhiteSpace (trim s).
Proof.
  unfold trim. split; intros c Hc.
  - apply trimEnd_head in Hc. by apply trimStart_head in Hc.
  - by apply trimEnd_last in Hc.
Qed.

Ltac trimmed_step :=
  intros Hinv r; unfold onTimer, onExec, onStreamError, sudoData;
  match goal with ev : Event |- _ => destruct ev end;
  cbn; delivery_cases; intros Hr; try discriminate;
  try (apply Hinv; congruence);
  try (injection Hr as <-; split; apply trim_noSurroundingWhiteSpace).

Lemma executeCommand_step_trimmed o st ev :
  resolvedTrimmed st -> resolvedTrimmed (executeCommand_step o st ev).
Proof. unfold executeCommand_step. trimmed_step. Qed.

Lemma executeWithInput_step_trimmed input o st ev :
  resolvedTrimmed st -> resolvedTrimmed (executeWithInput_step input o st ev).
Proof. unfold executeWithInput_step. trimmed_step. Qed.

Lemma executeSudoCommand_step_trimmed o st ev :
  resolvedTrimmed st -> resolvedTrimmed (executeSudoCommand_step o st ev).
Proof. unfold executeSudoCommand_step. trimmed_step. Qed.

Lemma run_trimmed (step : Run -> Event -> Run) events st :
  (forall st ev, resolvedTrimmed st -> resolvedTrimmed (step st ev)) ->
  resolvedTrimmed st -> resolvedTrimmed (fold_left step events st).
Proof.
  intros Hstep. revert st. induction events as [|ev events IH]; intros st Hst;
    [done|]. cbn. auto.
Qed.

(** X17.  The [stdout] and [stderr] of every result the three executors
    resolve with neither begin nor end with white space. *)
Theorem results_are_trimmed (s : SSHSession) (command input : jsstring)
    (o : CommandOptions) (events : list Event) (r : CommandResult) :
  promise (executeCommand s command o events) = Resolved r
  \/ promise (executeWithInput s command input o events) = Resolved r
  \/ promise (executeSudoCommand s command o events) = Resolved r ->
  noSurroundingWhiteSpace (stdout r) /\ noSurroundingWhiteSpace (stderr r).
Proof.
  intros [Hr|[Hr|Hr]]; revert r Hr;
    unfold executeCommand, executeWithInput, executeSudoCommand;
    apply run_trimmed;
    auto using executeCommand_step_trimmed, executeWithInput_step_trimmed,
               executeSudoCommand_step_trimmed;
    intros r; discriminate.
Qed.

Lemma results_are_trimmed_witness :
  noSurroundingWhiteSpace (js "hi") /\ noSurroundingWhiteSpace [].
Proof.
  apply (results_are_trimmed aSession (js "echo hi") [] noOptions
           (exchange [OutChunk (js " hi" ++ newline)] (Some 0) None 2000 [])
           (mkCommandResult (js "hi") [] (Some 0) None)).
  left. vm_compute. reflexivity.
Defined.

(** *** The password on the command line *)

Lemma escapeQuotes_cons c pw :
  escapeQuotes (c :: pw)
  = (if (c =? 39)%N then [39; 92; 39; 39]%N else [c]) ++ escapeQuotes pw.
Proof. reflexivity. Qed.

Lemma shellWord_quoted pw rest :
  shellWord false rest = Some ([], rest) ->
  shellWord true (escapeQuotes pw ++ js "'" ++ rest) = Some (pw, rest).
Proof.
  intros Hrest. induction pw as [|c pw IH].
  - cbn. exact Hrest.
  - rewrite escapeQuotes_cons, <- app_assoc.
    destruct (c =? 39)%N eqn:E.
    + apply N.eqb_eq in E. subst c.
      cbn [app shellWord N.eqb Pos.eqb]. by rewrite IH.
    + cbn [app shellWord]. rewrite E. by rewrite IH.
Qed.

(** X18.  The command line [executeSudoCommand] builds for a supplied
    password is [echo], the password as one quoted word, then
    [| sudo -S <command>]: read by the POSIX rules for single quotes and
    backslashes ([shellWord]), the word is the password, whatever characters
    it contains. *)
Theorem sudoCommand_quotes_password (command : jsstring) (o : CommandOptions)
    (pw : jsstring) :
  sudoPassword o = Some pw -> truthy pw = true ->
  exists word,
    sudoCommand command o = (js "echo " ++ word, true)
    /\ shellWord false word = Some (pw, js " | sudo -S " ++ command).
Proof.
  intros Hpw Ht. unfold sudoCommand. rewrite Hpw, Ht.
  exists (js "'" ++ escapeQuotes pw ++ js "' | sudo -S " ++ command).
  split; [reflexivity|].
  change (js "'" ++ escapeQuotes pw ++ js "' | sudo -S " ++ command)
    with (39%N :: (escapeQuotes pw ++ js "'" ++ js " | sudo -S " ++ command)).
  cbn [shellWord N.eqb Pos.eqb]. by apply shellWord_quoted.
Qed.

Lemma sudoCommand_quotes_password_witness :
  exists word,
    sudoCommand (js "id") (withPassword (js "it's; rm -rf /"))
      = (js "echo " ++ word, true)
    /\ shellWord false word = Some (js "it's; rm -rf /", js " | sudo -S id").
Proof.
  apply (sudoCommand_quotes_password (js "id") (withPassword (js "it's; rm -rf /")));
    reflexivity.
Defined.

End ExecutorMore.

(** ** File operations and their refusals *)

Section FileOperations.

Import SFTPOperations MkdirSpec TransferSpec.

Context {W : Type} `{Env W}.

Local Open Scope async_scope.

(** X19.  [exists] never rejects and changes nothing on either side: it
    answers whether the session has an SFTP handle and [sftp.stat] succeeds
    for the path, every failure being turned into [false]. *)
Theorem exists_never_rejects (remotePath : jsstring) (st : State W) :
  exists st',
    exists_ remotePath st
    = (st', Ok (bool_decide (is_Some (sftp (session st)))
                && statSucceeds (world st) remotePath))
    /\ world st' = world st.
Proof.
  unfold exists_, tryCatch, stat, bind, getSFTP, query, touch, ret, statSucceeds.
  destruct (sftp (session st)) as [h|]; cbn.
  - destruct (sftp_stat remotePath (world st)); cbn; eauto.
  - eauto.
Qed.

(** X20.  On a session without SFTP handle the file operations reject with
    [SFTP client not initialized] ([remove] with its prefix before it) and
    leave the session and both sides as they are. *)
Theorem operations_need_sftp_handle (st : State W) (p p' : jsstring)
    (recursive : option bool) (mode : option Z)
    (options : option FileTransferOptions) (fuel : nat) :
  sftp (session st) = None ->
  listDirectory p st = (st, Throw notInitialized)
  /\ stat p st = (st, Throw notInitialized)
  /\ mkdir p recursive mode st = (st, Throw notInitialized)
  /\ unlink p st = (st, Throw notInitialized)
  /\ rmdir p st = (st, Throw notInitialized)
  /\ uploadFile p p' options st = (st, Throw notInitialized)
  /\ downloadFile p p' options st = (st, Throw notInitialized)
  /\ remove fuel p recursive st = (st, Throw (js "Failed to remove: " ++ notInitialized))
  /\ uploadDirectory (S fuel) p p' options st = (st, Throw notInitialized).
Proof.
  intros Hnone.
  assert (Hget : forall A (k : nat -> M W A),
            bind getSFTP k st = (st, Throw notInitialized)).
  { intros A k. unfold bind, getSFTP. by rewrite Hnone. }
  assert (Hmkdir : forall q r m, mkdir q r m st = (st, Throw notInitialized)).
  { intros q r m. unfold mkdir. apply Hget. }
  repeat split; try apply Hget; try apply Hmkdir.
  - unfold remove, tryCatch. unfold bind at 1. unfold stat. rewrite Hget. reflexivity.
  - cbn [uploadDirectory]. unfold bind at 1. by rewrite Hmkdir.
Qed.

(** *** Transfers of one file *)

Lemma exists_run (remotePath : jsstring) (st : State W) (h : nat) :
  sftp (session st) = Some h ->
  exists st',
    exists_ remotePath st = (st', Ok (statSucceeds (world st) remotePath))
    /\ world st' = world st /\ sftp (session st') = Some h.
Proof.
  intros Hh.
  unfold exists_, tryCatch, stat, bind, getSFTP, query, touch, ret, statSucceeds.
  rewrite Hh. destruct (sftp_stat remotePath (world st)); cbn; eauto.
Qed.

(** X21.  [uploadFile] rejects, without touching either side, when the
    local file does not exist ([Local file not found]) and when the remote
    path exists and [overwrite] is not set ([Remote file already exists]);
    the local check comes first. *)
Theorem uploadFile_refuses (localPath remotePath : jsstring)
    (options : option FileTransferOptions) (st : State W) (h : nat) :
  sftp (session st) = Some h ->
  fs_existsSync localPath (world st) = false
  \/ (overwriteRequested options = false
      /\ statSucceeds (world st) remotePath = true) ->
  exists st',
    uploadFile localPath remotePath options st
    = (st', Throw (if fs_existsSync localPath (world st)
                   then js "Remote file already exists: " ++ remotePath
                   else js "Local file not found: " ++ localPath))
    /\ world st' = world st.
Proof.
  intros Hh Hcase. unfold uploadFile, bind at 1, getSFTP. rewrite Hh.
  unfold bind at 1, existsSync.
  destruct (fs_existsSync localPath (world st)) eqn:Hlocal; cbn [negb].
  - destruct Hcase as [?|[Hover Hremote]]; [done|].
    rewrite Hover. cbn [negb]. unfold bind at 1, bind at 1.
    destruct (exists_run remotePath st h Hh) as (st' & Hex & Hw & _).
    rewrite Hex, Hremote. unfold throw. eauto.
  - unfold throw. eauto.
Qed.

(** X22.  [downloadFile] rejects, without touching either side, when the
    remote path does not exist ([Remote file not found]) and when the local
    path exists and [overwrite] is not set ([Local file already exists]);
    the remote check comes first. *)
Theorem downloadFile_refuses (remotePath localPath : jsstring)
    (options : option FileTransferOptions) (st : State W) (h : nat) :
  sftp (session st) = Some h ->
  statSucceeds (world st) remotePath = false
  \/ (overwriteRequested options = false
      /\ fs_existsSync localPath (world st) = true) ->
  exists st',
    downloadFile remotePath localPath options st
    = (st', Throw (if statSucceeds (world st) remotePath
                   then js "Local file already exists: " ++ localPath
                   else js "Remote file not found: " ++ remotePath))
    /\ world st' = world st.
Proof.
  intros Hh Hcase. unfold downloadFile, bind at 1, getSFTP. rewrite Hh.
  unfold bind at 1.
  destruct (exists_run remotePath st h Hh) as (st' & Hex & Hw & _).
  rewrite Hex.
  destruct (statSucceeds (world st) remotePath) eqn:Hremote; cbn [negb].
  - destruct Hcase as [?|[Hover Hlocal]]; [done|].
    unfold bind at 1, existsSync. rewrite Hw, Hlocal, Hover. cbn.
    unfold throw. eauto.
  - unfold throw. eauto.
Qed.

(** X23.  [remove] of a path that [sftp.stat] fails for rejects with the
    two prefixes [Failed to remove: Failed to get stats: ] before the
    message of the server, and changes nothing. *)
Theorem remove_of_missing_path (fuel : nat) (remotePath message : jsstring)
    (recursive : option bool) (st : State W) (h : nat) :
  sftp (session st) = Some h ->
  sftp_stat remotePath (world st) = inl message ->
  remove fuel remotePath recursive st
  = (st, Throw (js "Failed to remove: " ++ js "Failed to get stats: " ++ message)).
Proof.
  intros Hh Hstat. unfold remove, tryCatch. unfold bind at 1.
  unfold stat, bind, getSFTP, query. rewrite Hh, Hstat. reflexivity.
Qed.

(** *** The lists and the map of a result *)








(** X25.  A result of [uploadDirectory] or [downloadDirectory] with an
    empty [failed] list has its [success] flag set. *)
Theorem nothing_failed_means_success (fuel : nat) (a b : jsstring)
    (options : option FileTransferOptions) (st st' : State W)
    (r : TransferResult) :
  uploadDirectory fuel a b options st = (st', Ok r)
  \/ downloadDirectory fuel a b options st = (st', Ok r) ->
  failed r = [] -> success r = true.
Proof.
  intros [Hr|Hr].
  - by apply uploadDirectory_flagCovers in Hr.
  - by apply downloadDirectory_flagCovers in Hr.
Qed.

(** *** Failures of single entries *)

Lemma forOfResult_not_rejected {A} (l : list A)
    (body : A -> TransferResult -> M W TransferResult) :
  (forall x r st, rejected (body x r st).2 = false) ->
  forall r st, rejected (forOfResult l body r st).2 = false.
Proof.
  intros Hbody. induction l as [|x l IH]; intros r st; [done|].
  cbn [forOfResult]. unfold bind. specialize (Hbody x r st).
  destruct (body x r st) as [st1 [r1|e|]]; [apply IH | done | done].
Qed.

Lemma tryCatch_not_rejected {A} (m : M W A) (f : jsstring -> A) st :
  rejected (tryCatch m (fun message => ret (f message)) st).2 = false.
Proof. unfold tryCatch. by destruct (m st) as [st1 [r1|e|]]. Qed.

(** X26.  Once the target directory is there and the source is listed, a
    directory transfer is never rejected: what fails for an entry, at any
    depth, is recorded in the result. *)
Theorem entry_failures_never_reject (fuel : nat) (a b : jsstring)
    (options : option FileTransferOptions) (st st1 : State W) :
  (forall es,
     mkdir b (Some true) None st = (st1, Ok tt) ->
     fs_readdirSync a (world st1) = inr es ->
     rejected (uploadDirectory fuel a b options st).2 = false)
  /\ (forall listing,
        fs_existsSync b (world st) = true ->
        listDirectory a st = (st1, Ok listing) ->
        rejected (downloadDirectory fuel a b options st).2 = false).
Proof.
  destruct fuel as [|fuel]; [done|]. split.
  - intros es Hmkdir Hread. cbn [uploadDirectory].
    unfold bind at 1. rewrite Hmkdir. unfold bind at 1, query. rewrite Hread.
    apply forOfResult_not_rejected. intros x r s. apply tryCatch_not_rejected.
  - intros listing Hlocal Hlist. cbn [downloadDirectory].
    unfold bind at 1, existsSync. rewrite Hlocal. cbn [negb].
    unfold bind at 1, ret. unfold bind at 1. rewrite Hlist.
    apply forOfResult_not_rejected. intros x r s. apply tryCatch_not_rejected.
Qed.

End FileOperations.

Section FileOperationExamples.

Import SFTPOperations MkdirSpec TransferSpec TreeWorld Examples.

Lemma operations_need_sftp_handle_witness :
  listDirectory (js "/tmp") detachedState = (detachedState, Throw notInitialized)
  /\ remove 3 (js "/tmp") (Some true) detachedState
     = (detachedState, Throw (js "Failed to remove: " ++ notInitialized)).
Proof.
  destruct (operations_need_sftp_handle detachedState (js "/tmp") (js "/x")
              (Some true) None None 3 eq_refl)
    as (Hlist & _ & _ & _ & _ & _ & _ & Hremove & _).
  split; [exact Hlist | exact Hremove].
Defined.

Lemma uploadFile_refuses_witness :
  exists st',
    uploadFile (js "/site/img/logo.png") (js "/srv/img/logo.png") None
      (mkState uploadWorld aSession)
    = (st', Throw (js "Remote file already exists: /srv/img/logo.png"))
    /\ world st' = uploadWorld.
Proof.
  destruct (uploadFile_refuses (js "/site/img/logo.png") (js "/srv/img/logo.png")
              None (mkState uploadWorld aSession) 1%nat eq_refl)
    as (st' & Hrun & Hworld).
  - right. split; vm_compute; reflexivity.
  - exists st'. split; [|exact Hworld]. rewrite Hrun. vm_compute. reflexivity.
Defined.

Lemma downloadFile_refuses_witness :
  exists st',
    downloadFile (js "/data/sub/f.txt") (js "/dl/sub/f.txt") None
      (mkState downloadWorld aSession)
    = (st', Throw (js "Local file already exists: /dl/sub/f.txt"))
    /\ world st' = downloadWorld.
Proof.
  destruct (downloadFile_refuses (js "/data/sub/f.txt") (js "/dl/sub/f.txt")
              None (mkState downloadWorld aSession) 1%nat eq_refl)
    as (st' & Hrun & Hworld).
  - right. split; vm_compute; reflexivity.
  - exists st'. split; [|exact Hworld]. rewrite Hrun. vm_compute. reflexivity.
Defined.

Lemma remove_of_missing_path_witness :
  remove 3 (js "/nowhere") (Some true) aState
  = (aState,
     Throw (js "Failed to remove: " ++ js "Failed to get stats: " ++ js "No such file")).
Proof.
  apply (remove_of_missing_path 3 (js "/nowhere") (js "No such file") (Some true)
           aState 1%nat).
  - reflexivity.
  - vm_compute. reflexivity.
Defined.


Lemma nothing_failed_means_success_witness :
  exists r,
    (uploadDirectory 5 (js "/dl") (js "/up") None
       (mkState downloadWorld aSession)).2 = Ok r
    /\ success r = true.
Proof.
  assert (Hrun : exists st' r,
    uploadDirectory 5 (js "/dl") (js "/up") None (mkState downloadWorld aSession)
    = (st', Ok r) /\ failed r = [])
    by (do 2 eexists; split; vm_compute; reflexivity).
  destruct Hrun as (st' & r & Hrun & Hnone). exists r. split; [by rewrite Hrun|].
  apply (nothing_failed_means_success 5 (js "/dl") (js "/up") None
           (mkState downloadWorld aSession) st' r); [left; exact Hrun | exact Hnone].
Defined.

Lemma entry_failures_never_reject_witness :
  rejected (uploadDirectory 5 (js "/site") (js "/srv") None
              (mkState uploadWorld aSession)).2 = false.
Proof.
  assert (Hmkdir : exists st1 es,
    mkdir (js "/srv") (Some true) None (mkState uploadWorld aSession) = (st1, Ok tt)
    /\ fs_readdirSync (js "/site") (world st1) = inr es)
    by (do 2 eexists; split; vm_compute; reflexivity).
  destruct Hmkdir as (st1 & es & Hmkdir & Hread).
  exact (proj1 (entry_failures_never_reject 5 (js "/site") (js "/srv") None
                  (mkState uploadWorld aSession) st1) es Hmkdir Hread).
Defined.

End FileOperationExamples.
